(** * Order execution engine: a shallow embedding of the admission pipeline,
    the order repository, the BullMQ worker and the WebSocket backfill.

    Conventions of the model.
    - Order ids (uuid v4 in the source) are [nat]s handed out by a counter.
    - Decimal strings (amounts, prices, slippage) are [Q]s, read exactly;
      the rounding decimal.js and Postgres apply to them is written out.
    - The Postgres [orders] table is a [gmap nat OrderRow]; the Redis key
      spaces used by the middlewares are [gmap string _].
    - Every awaited call that may throw is given its outcome by an explicit
      environment record, so every interleaving of failures can be stated. *)

From Stdlib Require Import QArith Qabs Qround ZArith Lia.
From stdpp Require Import base gmap strings list.

(* ================================================================== *)
(** ** Decimal arithmetic: decimal.js (precision 20, ROUND_HALF_UP) and
    Postgres [DECIMAL(p, s)] columns *)

(** [10^k] for any integer [k]. *)
Definition pow10 (k : Z) : Q :=
  if (0 <=? k)%Z then inject_Z (10 ^ k) else (/ inject_Z (10 ^ (- k)))%Q.

(** Rounding to an integer, ties away from zero: decimal.js's
    [ROUND_HALF_UP] and the rounding of Postgres [numeric]. *)
Definition roundHalfAway (y : Q) : Z :=
  let r := Qfloor (Qabs y + (1#2)) in if Qle_bool 0 y then r else (- r)%Z.

(** The number of decimal digits of a positive integer ([fuel] bounds it). *)
Fixpoint digitCount (fuel : nat) (a : Z) : Z :=
  match fuel with
  | O => 0
  | S f => if (a <? 10)%Z then 1 else (1 + digitCount f (a / 10))%Z
  end.

Definition digitsOf (a : Z) : Z := digitCount (Pos.size_nat (Z.to_pos a)) a.

(** The exponent [e] with [10^(e-1) <= |x| < 10^e], for [x <> 0]. *)
Definition decExponent (x : Q) : Z :=
  let e0 := (digitsOf (Z.abs (Qnum x)) - digitsOf (Zpos (Qden x)))%Z in
  if Qle_bool (pow10 e0) (Qabs x) then (e0 + 1)%Z else e0.

(** Rounding to [sd] significant digits, ties away from zero. *)
Definition roundSig (sd : Z) (x : Q) : Q :=
  if Qeq_bool x 0 then 0%Q
  else let k := (sd - decExponent x)%Z in
       (inject_Z (roundHalfAway (x * pow10 k)) * pow10 (- k))%Q.

(** Rounding to [s] decimal places, ties away from zero: decimal.js's
    [toFixed(s)], and the value a [DECIMAL(p, s)] column stores. *)
Definition roundScale (s : Z) (x : Q) : Q :=
  (inject_Z (roundHalfAway (x * pow10 s)) * pow10 (- s))%Q.

(** decimal.js's default [precision]; the source never changes it. *)
Definition DECIMAL_PRECISION : Z := 20.

(** A decimal.js value: finite, [Infinity] with its sign ([true] for
    [-Infinity]), or [NaN].  [new Decimal(s)] of a decimal string is exact. *)
Inductive DecVal := DFinite (q : Q) | DInfinity (negative : bool) | DNaN.

(** [x.minus(y)] and [x.mul(y)]: exact result rounded to 20 significant digits. *)
Definition decMinus (x y : Q) : Q := roundSig DECIMAL_PRECISION (x - y).
Definition decMul (x y : Q) : Q := roundSig DECIMAL_PRECISION (x * y).

(** [x.div(y)]: [0/0] is [NaN], [x/0] an infinity of the sign of [x] (the
    divisor read from a string other than ["-0"] is [+0]); otherwise the
    quotient rounded to 20 significant digits. *)
Definition decDiv (x y : Q) : DecVal :=
  if Qeq_bool y 0
  then (if Qeq_bool x 0 then DNaN else DInfinity (negb (Qle_bool 0 x)))
  else DFinite (roundSig DECIMAL_PRECISION (x / y)).

(** [x.lte(y)]: [NaN] compares false, [-Infinity] is below everything. *)
Definition decLte (x : DecVal) (y : Q) : bool :=
  match x with
  | DFinite q => Qle_bool q y
  | DInfinity negative => negative
  | DNaN => false
  end.

(** [x.toFixed(6)] (a string; its value is kept). *)
Definition decToFixed (s : Z) (x : DecVal) : DecVal :=
  match x with DFinite q => DFinite (roundScale s q) | _ => x end.

(* ================================================================== *)
(** ** src/types/index.ts *)

Inductive OrderStatus := PENDING | ROUTING | BUILDING | SUBMITTED | CONFIRMED | FAILED.

#[global] Instance OrderStatus_eq_dec : EqDecision OrderStatus.
Proof. solve_decision. Defined.

Inductive DexProvider := RAYDIUM | METEORA.

#[global] Instance DexProvider_eq_dec : EqDecision DexProvider.
Proof. solve_decision. Defined.

Inductive ErrorCode :=
  | INVALID_BODY | NOT_FOUND | IDEMPOTENCY_CONFLICT | RATE_LIMITED | QUEUE_FULL
  | SERVICE_UNAVAILABLE | INTERNAL_ERROR | SLIPPAGE_EXCEEDED | EXECUTION_FAILED
  | TIMEOUT.

#[global] Instance ErrorCode_eq_dec : EqDecision ErrorCode.
Proof. solve_decision. Defined.

(** [Error.message] of the errors the worker catches.  The slippage error
    of consumer.ts line 91 is kept structured (its text is
    [`Slippage exceeded: ${actualSlippage} > ${request.slippage}`], where
    [actualSlippage] is the [toFixed(6)] string); any other error (venue,
    Postgres, Redis) keeps its message text. *)
Inductive ErrMsg :=
  | MsgSlippage (actualSlippage : DecVal) (maxSlippage : Q)
  | MsgText (message : string).

Definition mentions_slippage (m : ErrMsg) : bool :=
  match m with MsgSlippage _ _ => true | MsgText _ => false end.

(** IOrderLog (timestamps are not modelled). *)
Record IOrderLog := mkLog {
  log_stage : OrderStatus;
  log_raydium : option Q;
  log_meteora : option Q;
  log_selected : option DexProvider;
  log_reason : option ErrMsg;
  log_txHash : option string;
  log_executedPrice : option Q;
  log_attempt : option nat;
  log_maxAttempts : option nat
}.

Definition baseLog (s : OrderStatus) : IOrderLog :=
  mkLog s None None None None None None None None.

Record IDexQuote := mkQuote { q_dex : DexProvider; q_price : Q; q_fee : Q }.

Record ISwapResult := mkSwap {
  sw_txHash : string; sw_executedPrice : Q; sw_dex : DexProvider }.

Record IOrderRequest := mkRequest {
  rq_tokenIn : string; rq_tokenOut : string; rq_amount : Q; rq_slippage : Q }.

(* ================================================================== *)
(** ** Order repository (models/order.ts): the [orders] table *)

(** OrderRow, with the column names of the source. *)
Record OrderRow := mkRow {
  status : OrderStatus;
  token_in : string;
  token_out : string;
  amount_in : Q;
  slippage : Q;
  amount_out : option Q;
  dex_used : option DexProvider;
  tx_hash : option string;
  failure_reason : option ErrMsg;
  raydium_quote : option Q;
  meteora_quote : option Q;
  logs : list IOrderLog
}.

Abbreviation DB := (gmap nat OrderRow).

(** Strings are the UTF-8 bytes of the text.  Postgres counts characters:
    every byte that is not a continuation byte (128 to 191) starts one. *)
Definition isContinuation (c : Ascii.ascii) : bool :=
  let n := Ascii.nat_of_ascii c in (128 <=? n) && (n <=? 191).

Fixpoint utf8Chars (s : string) : nat :=
  match s with
  | EmptyString => 0
  | String c r => (if isContinuation c then 0 else 1) + utf8Chars r
  end.

Fixpoint allSpaces (s : string) : bool :=
  match s with
  | EmptyString => true
  | String c r => Ascii.eqb c (Ascii.ascii_of_nat 32) && allSpaces r
  end.

(** A value assigned to a [VARCHAR(n)] column: stored when it has at most
    [n] characters; a longer one is cut to [n] characters when the excess is
    all spaces, and is an error otherwise. *)
Definition varcharValue (n : nat) (s : string) : option string :=
  if utf8Chars s <=? n then Some s
  else
    let keep := String.length s - (utf8Chars s - n) in
    if allSpaces (String.substring keep (String.length s - keep) s)
    then Some (String.substring 0 keep s) else None.

(** A value assigned to a [DECIMAL(p, s)] column: rounded to [s] places,
    an overflow error when the rounded value has more than [p - s] integer
    digits. *)
Definition numericValue (p s : Z) (x : Q) : option Q :=
  let v := roundScale s x in
  if Qle_bool (pow10 (p - s)) (Qabs v) then None else Some v.

(** The row [INSERT INTO orders (...) VALUES (..., 'pending', [initialLog])]
    builds from already converted column values. *)
Definition newRowOf (tokenIn tokenOut : string) (amountIn slip : Q) : OrderRow :=
  mkRow PENDING tokenIn tokenOut amountIn slip None None None None None None
    [baseLog PENDING].

(** The row as stored: [token_in], [token_out] are [VARCHAR(64)],
    [amount_in] is [DECIMAL(18, 9)] and [slippage] is [DECIMAL(5, 4)];
    [None] when one of the values is refused. *)
Definition insertedRow (request : IOrderRequest) : option OrderRow :=
  match varcharValue 64 request.(rq_tokenIn), varcharValue 64 request.(rq_tokenOut),
        numericValue 18 9 request.(rq_amount), numericValue 5 4 request.(rq_slippage) with
  | Some ti, Some to, Some a, Some sl => Some (newRowOf ti to a sl)
  | _, _, _, _ => None
  end.

(** [createOrder]: the INSERT fails (the promise rejects) on a duplicate
    primary key or on a refused value; otherwise the row is added. *)
Definition createOrder (id : nat) (request : IOrderRequest) (db : DB)
    : option (OrderRow * DB) :=
  match db !! id with
  | Some _ => None
  | None =>
      match insertedRow request with
      | Some r => Some (r, <[id := r]> db)
      | None => None
      end
  end.

(** The row a successful [createOrder] stores. *)
Definition newRow (request : IOrderRequest) : OrderRow :=
  default (newRowOf request.(rq_tokenIn) request.(rq_tokenOut) request.(rq_amount)
             request.(rq_slippage))
    (insertedRow request).

(** The shape shared by every [UPDATE orders SET ... WHERE id = $1 RETURNING *]:
    the row is rewritten when it exists, whatever its current contents;
    with no row the table is unchanged and [null] is returned. *)
Definition updateWhereId (id : nat) (f : OrderRow -> OrderRow) (db : DB)
    : option OrderRow * DB :=
  match db !! id with
  | None => (None, db)
  | Some r => (Some (f r), <[id := f r]> db)
  end.

(** [SET status = $2, logs = logs || $3]; the log entry is
    [{stage: status, timestamp, ...logEntry}], the spread given as [logEntry]. *)
Definition updateOrderStatus (id : nat) (st : OrderStatus)
    (logEntry : IOrderLog -> IOrderLog) (db : DB) : option OrderRow * DB :=
  updateWhereId id (fun r =>
    mkRow st r.(token_in) r.(token_out) r.(amount_in) r.(slippage)
      r.(amount_out) r.(dex_used) r.(tx_hash) r.(failure_reason)
      r.(raydium_quote) r.(meteora_quote) (r.(logs) ++ [logEntry (baseLog st)])) db.

Definition updateOrderRouting (id : nat) (raydiumQuote meteoraQuote : Q)
    (selectedDex : DexProvider) (db : DB) : option OrderRow * DB :=
  let lg := mkLog ROUTING (Some raydiumQuote) (Some meteoraQuote) (Some selectedDex)
              None None None None None in
  updateWhereId id (fun r =>
    mkRow ROUTING r.(token_in) r.(token_out) r.(amount_in) r.(slippage)
      r.(amount_out) (Some selectedDex) r.(tx_hash) r.(failure_reason)
      (Some raydiumQuote) (Some meteoraQuote) (r.(logs) ++ [lg])) db.

Definition updateOrderConfirmed (id : nat) (txHash : string) (executedPrice : Q)
    (amountOut : Q) (db : DB) : option OrderRow * DB :=
  let lg := mkLog CONFIRMED None None None None (Some txHash) (Some executedPrice)
              None None in
  updateWhereId id (fun r =>
    mkRow CONFIRMED r.(token_in) r.(token_out) r.(amount_in) r.(slippage)
      (Some amountOut) r.(dex_used) (Some txHash) r.(failure_reason)
      r.(raydium_quote) r.(meteora_quote) (r.(logs) ++ [lg])) db.

Definition updateOrderFailed (id : nat) (failureReason : ErrMsg)
    (attempt maxAttempts : nat) (db : DB) : option OrderRow * DB :=
  let lg := mkLog FAILED None None None (Some failureReason) None None
              (Some attempt) (Some maxAttempts) in
  updateWhereId id (fun r =>
    mkRow FAILED r.(token_in) r.(token_out) r.(amount_in) r.(slippage)
      r.(amount_out) r.(dex_used) r.(tx_hash) (Some failureReason)
      r.(raydium_quote) r.(meteora_quote) (r.(logs) ++ [lg])) db.

(** The log spread [{ txHash: swapResult.txHash }] of consumer.ts line 95. *)
Definition withTxHash (h : string) (l : IOrderLog) : IOrderLog :=
  mkLog l.(log_stage) l.(log_raydium) l.(log_meteora) l.(log_selected)
    l.(log_reason) (Some h) l.(log_executedPrice) l.(log_attempt) l.(log_maxAttempts).

(* ================================================================== *)
(** ** MockDexRouter (lib/dex/mockDexRouter.ts), the pure parts *)

(** [new Decimal(price).mul(new Decimal(1).minus(fee))]; the fee, a
    number, enters decimal.js through its shortest decimal string. *)
Definition effective (q : IDexQuote) : Q := decMul q.(q_price) (decMinus 1 q.(q_fee)).

(** Raydium wins ties ([gte], an exact comparison). *)
Definition selectBestDex (raydium meteora : IDexQuote) : DexProvider :=
  if Qle_bool (effective meteora) (effective raydium) then RAYDIUM else METEORA.

(** [expected.minus(executed).abs().div(expected)], compared with [lte];
    the pair is [(passed, actualSlippage.toFixed(6))]. *)
Definition checkSlippage (expectedPrice executedPrice maxSlippage : Q) : bool * DecVal :=
  let actualSlippage := decDiv (Qabs (decMinus expectedPrice executedPrice)) expectedPrice in
  (decLte actualSlippage maxSlippage, decToFixed 6 actualSlippage).

(* ================================================================== *)
(** ** The worker (lib/queue/consumer.ts) *)

(** config.MAX_RETRIES, default ['3'] in config/index.ts. *)
Definition MAX_RETRIES : nat := 3.

(** A settled promise: a value, or a thrown error. *)
Inductive Res (A : Type) := Ok (a : A) | Throw (e : ErrMsg).
Arguments Ok {A} a.
Arguments Throw {A} e.

(** A message published on [order:status:<orderId>]. *)
Record BusMsg := mkBus { bm_orderId : nat; bm_status : OrderStatus; bm_error : option ErrMsg }.

(** What the worker's awaits touch: the table, the messages published, and
    (for the statements about every persisted row) the row written by each
    UPDATE, in order. *)
Record WS := mkWS { ws_db : DB; ws_pub : list BusMsg; ws_trace : list OrderRow }.

(** The async function body: state passing with exceptions.  A write that
    happened before a throw stays in the table (no transaction). *)
Definition W (A : Type) : Type := WS -> Res A * WS.

#[global] Instance W_ret : MRet W := fun A a s => (Ok a, s).
#[global] Instance W_bind : MBind W := fun A B k m s =>
  match m s with
  | (Ok a, s') => k a s'
  | (Throw e, s') => (Throw e, s')
  end.

Definition wthrow {A} (e : ErrMsg) : W A := fun s => (Throw e, s).

(** [try { m } catch (err) { h(err) }]. *)
Definition wcatch {A} (m : W A) (h : ErrMsg -> W A) : W A := fun s =>
  match m s with
  | (Ok a, s') => (Ok a, s')
  | (Throw e, s') => h e s'
  end.

Definition wlift {A} (r : Res A) : W A := fun s => (r, s).

(** The steps of an attempt that write or publish: the two ROUTING writes
    (status, then routing decision), BUILDING, SUBMITTED, CONFIRMED, the
    FAILED write of the final attempt and the PENDING retry event. *)
Inductive Step :=
  | StepRouting | StepRouted | StepBuilding | StepSubmitted | StepConfirmed
  | StepFailed | StepRetry.

(** Outcomes of the external calls of one attempt: the two venue quotes
    ([Promise.all], so one error fails both), the swap, whether the UPDATE
    of a step throws ([query] logs and rethrows the [pg] error), and whether
    [redisPub.publish] of a step throws. *)
Record AttemptEnv := mkEnv {
  env_quotes : Res (IDexQuote * IDexQuote);
  env_swap : Res ISwapResult;
  env_db : Step -> option ErrMsg;
  env_publish : Step -> option ErrMsg
}.

(** [await <UPDATE ... RETURNING *>]: one statement, so a failing one
    changes nothing and throws. *)
Definition dbw (env : AttemptEnv) (step : Step) (f : DB -> option OrderRow * DB)
    : W unit := fun s =>
  match env.(env_db) step with
  | Some e => (Throw e, s)
  | None =>
      let '(o, db') := f s.(ws_db) in
      (Ok tt, mkWS db' s.(ws_pub) (s.(ws_trace) ++ option_list o))
  end.

(** [await publishStatus(orderId, status, data)]. *)
Definition publishStatus (env : AttemptEnv) (step : Step) (orderId : nat)
    (st : OrderStatus) (err : option ErrMsg) : W unit := fun s =>
  match env.(env_publish) step with
  | Some e => (Throw e, s)
  | None => (Ok tt, mkWS s.(ws_db) (s.(ws_pub) ++ [mkBus orderId st err]) s.(ws_trace))
  end.

(** The [try] block of [processOrder], steps 1 to 8.  [amountOut] is the
    double product of [parseFloat]s with [toFixed(9)], taken as the exact
    product rounded to 9 places. *)
Definition processOrderBody (env : AttemptEnv) (orderId : nat)
    (request : IOrderRequest) : W unit :=
  dbw env StepRouting (updateOrderStatus orderId ROUTING id) ;;
  publishStatus env StepRouting orderId ROUTING None ;;
  qs ← wlift env.(env_quotes);
  let '(raydium, meteora) := qs in
  let selectedDex := selectBestDex raydium meteora in
  dbw env StepRouted (updateOrderRouting orderId raydium.(q_price) meteora.(q_price) selectedDex) ;;
  publishStatus env StepRouted orderId ROUTING None ;;
  dbw env StepBuilding (updateOrderStatus orderId BUILDING id) ;;
  publishStatus env StepBuilding orderId BUILDING None ;;
  let expectedPrice :=
    match selectedDex with RAYDIUM => raydium.(q_price) | METEORA => meteora.(q_price) end in
  swapResult ← wlift env.(env_swap);
  let slippageCheck :=
    checkSlippage expectedPrice swapResult.(sw_executedPrice) request.(rq_slippage) in
  if negb slippageCheck.1
  then wthrow (MsgSlippage slippageCheck.2 request.(rq_slippage))
  else
    dbw env StepSubmitted (updateOrderStatus orderId SUBMITTED (withTxHash swapResult.(sw_txHash))) ;;
    publishStatus env StepSubmitted orderId SUBMITTED None ;;
    let amountOut := roundScale 9 (request.(rq_amount) * swapResult.(sw_executedPrice)) in
    dbw env StepConfirmed (updateOrderConfirmed orderId swapResult.(sw_txHash)
           swapResult.(sw_executedPrice) amountOut) ;;
    publishStatus env StepConfirmed orderId CONFIRMED None.

(** [processOrder]: the catch block marks the order failed only when
    [job.attemptsMade + 1 >= config.MAX_RETRIES], otherwise publishes a
    pending/retry event; then the error is re-thrown.  An await of the
    catch block that throws rejects the attempt with its own error. *)
Definition processOrder (env : AttemptEnv) (attemptsMade : nat) (orderId : nat)
    (request : IOrderRequest) : W unit :=
  wcatch (processOrderBody env orderId request) (fun err =>
    (if MAX_RETRIES <=? attemptsMade + 1
     then dbw env StepFailed (updateOrderFailed orderId err (attemptsMade + 1) MAX_RETRIES) ;;
          publishStatus env StepFailed orderId FAILED (Some err)
     else publishStatus env StepRetry orderId PENDING (Some err)) ;;
    wthrow err).

(* ================================================================== *)
(** ** The queue (lib/queue/producer.ts and BullMQ's retry rule) *)

(** [defaultJobOptions]: [attempts: config.MAX_RETRIES],
    [backoff: { type: 'exponential', delay: 2000 }]. *)
Definition attempts : nat := MAX_RETRIES.
Definition backoffDelay : Z := 2000.

(** BullMQ's built-in exponential strategy: after the [attemptsMade]-th
    failure the job is delayed by [2^(attemptsMade - 1) * delay] ms. *)
Definition exponentialBackoff (delay : Z) (attemptsMade : nat) : Z :=
  (2 ^ (Z.of_nat attemptsMade - 1) * delay)%Z.

Inductive JobState := Completed | FailedTerminal (e : ErrMsg) | OutOfFuel.

Record JobRun := mkRun { jr_state : JobState; jr_attempts : nat; jr_delays : list Z }.

(** BullMQ's [moveToFailed]: [attemptsMade += 1]; retry (delayed by the
    backoff) while [attemptsMade < opts.attempts], else the job is failed.
    [envs n] gives the outcomes of the external calls of attempt [n]. *)
Fixpoint runAttempts (fuel : nat) (envs : nat -> AttemptEnv) (orderId : nat)
    (request : IOrderRequest) (attemptsMade : nat) (s : WS) : JobRun * WS :=
  match fuel with
  | O => (mkRun OutOfFuel attemptsMade [], s)
  | S fuel' =>
      match processOrder (envs attemptsMade) attemptsMade orderId request s with
      | (Ok _, s') => (mkRun Completed (S attemptsMade) [], s')
      | (Throw e, s') =>
          if S attemptsMade <? attempts
          then let '(r, s'') := runAttempts fuel' envs orderId request (S attemptsMade) s' in
               (mkRun r.(jr_state) r.(jr_attempts)
                  (exponentialBackoff backoffDelay (S attemptsMade) :: r.(jr_delays)), s'')
          else (mkRun (FailedTerminal e) (S attemptsMade) [], s')
      end
  end.

Definition runJob (envs : nat -> AttemptEnv) (orderId : nat) (request : IOrderRequest)
    (s : WS) : JobRun * WS :=
  runAttempts attempts envs orderId request 0 s.

(* ================================================================== *)
(** ** Request validation (schemas/index.ts) *)

(** A parsed JSON request body: an object as its list of fields. *)
Inductive JVal := JStr (s : string) | JNum (n : Z) | JBool (b : bool) | JNull.

#[global] Instance JVal_eq_dec : EqDecision JVal.
Proof. solve_decision. Defined.

Abbreviation Body := (list (string * JVal)).

(** Property access [body.k] (first occurrence). *)
Fixpoint field (k : string) (b : Body) : option JVal :=
  match b with
  | [] => None
  | (k', v) :: b' => if String.eqb k' k then Some v else field k b'
  end.

Definition isDigit (c : Ascii.ascii) : bool :=
  let n := Ascii.nat_of_ascii c in (48 <=? n) && (n <=? 57).

Definition asciiDot : Ascii.ascii := Ascii.ascii_of_nat 46.
Definition asciiZero : Ascii.ascii := Ascii.ascii_of_nat 48.

Fixpoint allDigits (s : string) : bool :=
  match s with EmptyString => true | String c r => isDigit c && allDigits r end.

Definition someDigits (s : string) : bool :=
  match s with EmptyString => false | String _ _ => allDigits s end.

(** The rest of [/^\d+\.?\d*$/] after its first digit: [\d* (\.\d* )?]. *)
Fixpoint amountTail (s : string) : bool :=
  match s with
  | EmptyString => true
  | String c r =>
      if isDigit c then amountTail r
      else if Ascii.eqb c asciiDot then allDigits r else false
  end.

(** [/^\d+\.?\d*$/]. *)
Definition amountRegex (s : string) : bool :=
  match s with EmptyString => false | String c r => isDigit c && amountTail r end.

(** [/^0?\.\d+$|^0$/]. *)
Definition slippageRegex (s : string) : bool :=
  String.eqb s "0" ||
  match s with
  | String c (String d r) =>
      if Ascii.eqb c asciiZero then Ascii.eqb d asciiDot && someDigits r
      else if Ascii.eqb c asciiDot then someDigits (String d r) else false
  | _ => false
  end.

(** [ExecuteOrderInput]: the data of a successful [safeParse]. *)
Record ExecuteOrderInput := mkInput {
  in_type : string; in_tokenIn : string; in_tokenOut : string;
  in_amount : string; in_slippage : string }.

(** The JavaScript [length] of a string given by its UTF-8 bytes: one
    code unit per character, two for a character outside the BMP (a 4-byte
    sequence, lead byte 240 or more); continuation bytes count nothing. *)
Fixpoint utf16Length (s : string) : nat :=
  match s with
  | EmptyString => 0
  | String c r =>
      (if isContinuation c then 0
       else if 240 <=? Ascii.nat_of_ascii c then 2 else 1) + utf16Length r
  end.

Section Validation.
(** JavaScript's [parseFloat] on the strings that passed the regexes. *)
Variable parseFloat : string -> Q.

(** zod's [min] and [max] count UTF-16 code units ([s.length]). *)
Definition tokenOk (v : option JVal) : option string :=
  match v with
  | Some (JStr s) => if (1 <=? utf16Length s) && (utf16Length s <=? 64) then Some s else None
  | _ => None
  end.

Definition amountOk (v : option JVal) : option string :=
  match v with
  | Some (JStr s) => if amountRegex s && negb (Qle_bool (parseFloat s) 0) then Some s else None
  | _ => None
  end.

Definition slippageOk (v : option JVal) : option string :=
  match v with
  | Some (JStr s) =>
      if slippageRegex s && Qle_bool 0 (parseFloat s) && Qle_bool (parseFloat s) (1#2)
      then Some s else None
  | _ => None
  end.

Definition typeOk (v : option JVal) : option string :=
  match v with Some (JStr s) => if String.eqb s "market" then Some s else None | _ => None end.

(** [validateOrderRequest]: [executeOrderSchema.safeParse(data)]; each
    field checked on its own, success iff all five pass. *)
Definition validateOrderRequest (b : Body) : option ExecuteOrderInput :=
  match typeOk (field "type" b), tokenOk (field "tokenIn" b), tokenOk (field "tokenOut" b),
        amountOk (field "amount" b), slippageOk (field "slippage" b) with
  | Some t, Some ti, Some to, Some a, Some sl => Some (mkInput t ti to a sl)
  | _, _, _, _, _ => None
  end.
End Validation.

(** An exact decimal reading of the strings matched by the two regexes
    (digits, at most one dot).  On the inputs used below it agrees with
    [parseFloat], whose double rounding is exact on them. *)
Fixpoint decimalDigits (s : string) (acc : Z) (scale : option Z) : Q :=
  match s with
  | EmptyString =>
      match scale with None => inject_Z acc | Some k => (inject_Z acc / inject_Z (10 ^ k))%Q end
  | String c r =>
      if isDigit c
      then decimalDigits r (acc * 10 + Z.of_nat (Ascii.nat_of_ascii c - 48))
             (option_map Z.succ scale)
      else if Ascii.eqb c asciiDot then decimalDigits r acc (Some 0%Z)
      else decimalDigits r acc scale
  end.

Definition parseDecimal (s : string) : Q := decimalDigits s 0 None.
(* ================================================================== *)
(** ** The admission pipeline of [POST /api/orders/execute] *)

(** HTTP replies: status code, JSON body, and the [Retry-After] header. *)
Inductive RespBody :=
  | RespOrder (orderId : nat)
  | RespError (code : ErrorCode) (retryAfter : option Z).

Record Reply := mkReply { rp_status : nat; rp_body : RespBody; rp_retryAfter : option Z }.

(** A Fastify preHandler either lets the request go on or has sent a reply,
    after which the remaining hooks and the handler do not run. *)
Inductive Hook := Continue | Sent (r : Reply).

Record HttpRequest := mkHttp { hr_ip : string; hr_key : option string; hr_body : Body }.

(** The outcome of every Redis / Postgres / queue call one request makes:
    [Date.now()], whether the rate-limit [MULTI] succeeds, the waiting count
    (or [None] when [getWaitingCount] throws), whether [getQueueHealth]
    succeeds, whether the idempotency [GET] succeeds, and whether
    [createOrder], [enqueueOrder] and [storeIdempotencyResult] succeed. *)
Record Infra := mkInfra {
  inf_now : Z; inf_rl_ok : bool; inf_waiting : option nat; inf_health_ok : bool;
  inf_idem_get_ok : bool; inf_create_ok : bool; inf_enqueue_ok : bool;
  inf_store_ok : bool }.

Definition healthy (now : Z) : Infra := mkInfra now true (Some 0) true true true true true.

(** IdempotencyData; the sha256 of [JSON.stringify(body)] is modelled by the
    body itself (hash collisions are not modelled). *)
Record IdempotencyData := mkIdem { idem_orderId : nat; idem_bodyHash : Body }.

Definition hashBody (b : Body) : Body := b.

(** --- the idempotency record in Redis, with its TTL --- *)

(** [IDEMPOTENCY_TTL] of middleware/idempotency.ts, in seconds. *)
Definition IDEMPOTENCY_TTL : Z := 300.

(** The [idempotency:<key>] entries with the time (ms) they expire at. *)
Abbreviation IdemStore := (gmap string (IdempotencyData * Z)).

(** [redis.get(key)] at [now]: Redis treats a key as gone once the clock is
    past its expiry time. *)
Definition redisGet (now : Z) (k : string) (store : IdemStore) : option IdempotencyData :=
  match store !! k with
  | Some (data, expiry) => if (now <=? expiry)%Z then Some data else None
  | None => None
  end.

(** [storeIdempotencyResult]: [SET key data EX IDEMPOTENCY_TTL]. *)
Definition storeIdempotencyResult (now : Z) (idempotencyKey : string) (bodyHash : Body)
    (orderId : nat) (store : IdemStore) : IdemStore :=
  <[idempotencyKey := (mkIdem orderId bodyHash, now + IDEMPOTENCY_TTL * 1000)%Z]> store.

(** Redis (rate-limit sorted sets and idempotency keys), the rows created
    and the jobs enqueued, and the uuid supply. *)
Record AdmState := mkAdm {
  as_rl : gmap string (list Z);
  as_idem : IdemStore;
  as_orders : gmap nat ExecuteOrderInput;
  as_jobs : list nat;
  as_next : nat }.

(** --- middleware/rateLimit.ts --- *)

Definition WINDOW_SIZE : Z := 60.
(** config.RATE_LIMIT, default ['30']. *)
Definition RATE_LIMIT : Z := 30.

(** [Math.ceil(WINDOW_SIZE - ((now - windowStart) / 1000))]; [now] and
    [windowStart] are integers below 2^53, so the double arithmetic of the
    source is exact and agrees with [Q]. *)
Definition retryAfterOf (now windowStart : Z) : Z :=
  Qceiling (inject_Z WINDOW_SIZE - inject_Z (now - windowStart) / inject_Z 1000).

(** The sorted set [ratelimit:<ip>] as the list of its scores (members are
    unique by construction); [EXPIRE] is not modelled, as every score it
    would drop is already below the next [ZREMRANGEBYSCORE] bound. *)
Definition rateLimitMiddleware (inf : Infra) (clientIp : string)
    (rl : gmap string (list Z)) : Hook * gmap string (list Z) :=
  let now := inf.(inf_now) in
  let windowStart := (now - WINDOW_SIZE * 1000)%Z in
  if negb inf.(inf_rl_ok) then (Continue, rl) (* catch: log and continue *)
  else
    let kept := filter (fun t => negb ((0 <=? t)%Z && (t <=? windowStart)%Z))
                  (default [] (rl !! clientIp)) in
    let requestCount := Z.of_nat (length kept) in
    let rl' := <[clientIp := kept ++ [now]]> rl in
    if (RATE_LIMIT <=? requestCount)%Z
    then let retryAfter := retryAfterOf now windowStart in
         (Sent (mkReply 429 (RespError RATE_LIMITED (Some retryAfter)) (Some retryAfter)), rl')
    else (Continue, rl').

(** --- middleware/backpressure.ts --- *)

Definition QUEUE_DEPTH_THRESHOLD : nat := 100.

Definition backpressureMiddleware (inf : Infra) : Hook :=
  match inf.(inf_waiting) with
  | None => Continue (* catch: log and continue *)
  | Some waiting =>
      if QUEUE_DEPTH_THRESHOLD <? waiting
      then if inf.(inf_health_ok)
           then Sent (mkReply 503 (RespError SERVICE_UNAVAILABLE (Some 30%Z)) (Some 30%Z))
           else Continue (* getQueueHealth threw: caught *)
      else Continue
  end.

(** --- middleware/idempotency.ts --- *)

(** Besides its hook result, the middleware may annotate the request with
    [idempotencyKey] and [idempotencyBodyHash] for the handler. *)
Definition idempotencyMiddleware (inf : Infra) (key : option string) (body : Body)
    (idem : IdemStore) : Hook * option (string * Body) :=
  match key with
  | None => (Continue, None)
  | Some k =>
      if String.eqb k "" then (Continue, None) (* [!idempotencyKey] *)
      else if negb inf.(inf_idem_get_ok) then (Continue, None) (* catch *)
      else
        let bodyHash := hashBody body in
        match redisGet inf.(inf_now) k idem with
        | Some data =>
            if decide (data.(idem_bodyHash) = bodyHash)
            then (Sent (mkReply 200 (RespOrder data.(idem_orderId)) None), None)
            else (Sent (mkReply 409 (RespError IDEMPOTENCY_CONFLICT None) None), None)
        | None => (Continue, Some (k, bodyHash))
        end
  end.

(** --- OrderController.executeOrder and OrderService.submitOrder --- *)

Definition setOrders (st : AdmState) (o : gmap nat ExecuteOrderInput) (n : nat) : AdmState :=
  mkAdm st.(as_rl) st.(as_idem) o st.(as_jobs) n.
Definition setJobs (st : AdmState) (j : list nat) : AdmState :=
  mkAdm st.(as_rl) st.(as_idem) st.(as_orders) j st.(as_next).
Definition setIdem (st : AdmState) (i : IdemStore) : AdmState :=
  mkAdm st.(as_rl) i st.(as_orders) st.(as_jobs) st.(as_next).
Definition setRl (st : AdmState) (r : gmap string (list Z)) : AdmState :=
  mkAdm r st.(as_idem) st.(as_orders) st.(as_jobs) st.(as_next).

Definition unavailable : Reply := mkReply 503 (RespError SERVICE_UNAVAILABLE None) None.

(** Validate; then, in one [try]: uuid, [createOrder] (row first),
    [enqueueOrder], [storeIdempotencyResult] when annotated; any throw
    gives 503 and keeps what was already written. *)
Definition executeOrder (parseFloat : string -> Q) (inf : Infra)
    (annot : option (string * Body)) (body : Body) (st : AdmState) : Reply * AdmState :=
  match validateOrderRequest parseFloat body with
  | None => (mkReply 400 (RespError INVALID_BODY None) None, st)
  | Some data =>
      let orderId := st.(as_next) in
      let st0 := setOrders st st.(as_orders) (S orderId) in
      if negb inf.(inf_create_ok) then (unavailable, st0) else
      let st1 := setOrders st (<[orderId := data]> st.(as_orders)) (S orderId) in
      if negb inf.(inf_enqueue_ok) then (unavailable, st1) else
      let st2 := setJobs st1 (st1.(as_jobs) ++ [orderId]) in
      match annot with
      | None => (mkReply 200 (RespOrder orderId) None, st2)
      | Some (k, h) =>
          if inf.(inf_store_ok)
          then (mkReply 200 (RespOrder orderId) None,
                setIdem st2 (storeIdempotencyResult inf.(inf_now) k h orderId st2.(as_idem)))
          else (unavailable, st2)
      end
  end.

(** The preHandler chain of routes/orders.ts, in its order:
    rate limit, backpressure, idempotency.  [inl] is a reply already sent,
    [inr] the idempotency annotation handed to the handler. *)
Definition preHandlers (inf : Infra) (req : HttpRequest) (st : AdmState)
    : (Reply + option (string * Body)) * AdmState :=
  let '(h1, rl') := rateLimitMiddleware inf req.(hr_ip) st.(as_rl) in
  let st1 := setRl st rl' in
  match h1 with
  | Sent r => (inl r, st1)
  | Continue =>
      match backpressureMiddleware inf with
      | Sent r => (inl r, st1)
      | Continue =>
          match idempotencyMiddleware inf req.(hr_key) req.(hr_body) st1.(as_idem) with
          | (Sent r, _) => (inl r, st1)
          | (Continue, annot) => (inr annot, st1)
          end
      end
  end.

Definition routeHandler (parseFloat : string -> Q) (inf : Infra) (req : HttpRequest)
    (pre : Reply + option (string * Body)) (st : AdmState) : Reply * AdmState :=
  match pre with
  | inl r => (r, st)
  | inr annot => executeOrder parseFloat inf annot req.(hr_body) st
  end.

(** One request handled from start to end with nothing interleaved. *)
Definition handleExecute (parseFloat : string -> Q) (inf : Infra) (req : HttpRequest)
    (st : AdmState) : Reply * AdmState :=
  let '(pre, st1) := preHandlers inf req st in
  routeHandler parseFloat inf req pre st1.

(** Requests handled one after the other. *)
Fixpoint handleSequential (parseFloat : string -> Q) (reqs : list (Infra * HttpRequest))
    (st : AdmState) : list Reply * AdmState :=
  match reqs with
  | [] => ([], st)
  | (inf, req) :: rest =>
      let '(r, st1) := handleExecute parseFloat inf req st in
      let '(rs, st2) := handleSequential parseFloat rest st1 in
      (r :: rs, st2)
  end.

(* ================================================================== *)
(** ** WebSocket backfill and live tail (services/webSocketService.ts) *)

(** The part of the row the backfill message carries: status and logs
    (one stage per persisted transition). *)
Record SubRow := mkSubRow { sr_status : OrderStatus; sr_logs : list OrderStatus }.

Inductive WsMsg :=
  | Backfill (st : OrderStatus) (lg : list OrderStatus)
  | StatusUpdate (st : OrderStatus).

(** How far [handleConnection] has gone: before [sendBackfill], between
    [sendBackfill] and [subscribeToUpdates], subscribed. *)
Inductive ConnPhase := CStart | CBackfilled | CSubscribed.

(** Who runs next at a suspension point: the worker or the connection. *)
Inductive Actor := AWorker | AConn.

(** What the worker has yet to do on this order's channel: persist a
    transition and then publish it ([publishOk] is [false] when that
    [redisPub.publish] throws, so the event is never sent), or publish an
    event that persists nothing (the pending/retry event). *)
Inductive WorkerOp :=
  | OpUpdate (st : OrderStatus) (publishOk : bool)
  | OpNotify (st : OrderStatus).

Record SubState := mkSub {
  ss_row : SubRow;
  ss_todo : list WorkerOp;             (* what the worker has yet to do *)
  ss_unpublished : option OrderStatus; (* persisted, publish not yet done *)
  ss_conn : ConnPhase;
  ss_out : list WsMsg;                 (* messages sent on the socket *)
  ss_bus : list (OrderStatus * bool)   (* publications, with "listener registered" *)
}.

(** A publication on [order:status:<id>]: the message reaches this socket
    only if the listener is registered at that moment. *)
Definition publishTo (st : OrderStatus) (s : SubState) (todo : list WorkerOp) : SubState :=
  let live := match s.(ss_conn) with CSubscribed => true | _ => false end in
  mkSub s.(ss_row) todo None s.(ss_conn)
    (if live then s.(ss_out) ++ [StatusUpdate st] else s.(ss_out))
    (s.(ss_bus) ++ [(st, live)]).

(** One step of the worker: publish the transition it has persisted, or
    persist the next one ([UPDATE ... RETURNING *]), or publish an event
    that persists nothing.  A persisted transition whose publish throws
    leaves nothing to publish. *)
Definition workerStep (s : SubState) : SubState :=
  match s.(ss_unpublished) with
  | Some st => publishTo st s s.(ss_todo)
  | None =>
      match s.(ss_todo) with
      | [] => s
      | OpUpdate st ok :: rest =>
          mkSub (mkSubRow st (s.(ss_row).(sr_logs) ++ [st])) rest
            (if ok then Some st else None) s.(ss_conn) s.(ss_out) s.(ss_bus)
      | OpNotify st :: rest => publishTo st s rest
      end
  end.

(** [handleConnection] after admission: [sendBackfill] (reads the row and
    sends it), then [subscribeToUpdates] (subscribes and registers the
    listener).  Nothing is buffered. *)
Definition connStep (s : SubState) : SubState :=
  match s.(ss_conn) with
  | CStart =>
      mkSub s.(ss_row) s.(ss_todo) s.(ss_unpublished) CBackfilled
        (s.(ss_out) ++ [Backfill s.(ss_row).(sr_status) s.(ss_row).(sr_logs)]) s.(ss_bus)
  | CBackfilled =>
      mkSub s.(ss_row) s.(ss_todo) s.(ss_unpublished) CSubscribed s.(ss_out) s.(ss_bus)
  | CSubscribed => s
  end.

Definition actorStep (a : Actor) (s : SubState) : SubState :=
  match a with AWorker => workerStep s | AConn => connStep s end.

Fixpoint runSchedule (sched : list Actor) (s : SubState) : SubState :=
  match sched with [] => s | a :: rest => runSchedule rest (actorStep a s) end.

Definition subInit (row : SubRow) (todo : list WorkerOp) : SubState :=
  mkSub row todo None CStart [] [].

(** What the client has seen of the history: the backfill logs followed by
    the live updates. *)
Fixpoint observed (out : list WsMsg) : list OrderStatus :=
  match out with
  | [] => []
  | Backfill _ lg :: rest => lg ++ observed rest
  | StatusUpdate st :: rest => st :: observed rest
  end.

(** [l1] is a subsequence of [l2]. *)
Fixpoint subseqb (l1 l2 : list OrderStatus) : bool :=
  match l1, l2 with
  | [], _ => true
  | _ :: _, [] => false
  | x :: r1, y :: r2 => if decide (x = y) then subseqb r1 r2 else subseqb l1 r2
  end.

(* ================================================================== *)
(** ** Auxiliary definitions used by the statements *)

(** Two requests in flight at once: each one's preHandlers (which await
    Redis) run before either handler writes anything. *)
Definition handleTwoInterleaved (parseFloat : string -> Q) (inf1 inf2 : Infra)
    (req1 req2 : HttpRequest) (st : AdmState) : list Reply * AdmState :=
  let '(p1, st1) := preHandlers inf1 req1 st in
  let '(p2, st2) := preHandlers inf2 req2 st1 in
  let '(r1, st3) := routeHandler parseFloat inf1 req1 p1 st2 in
  let '(r2, st4) := routeHandler parseFloat inf2 req2 p2 st3 in
  ([r1; r2], st4).

(** No Redis, Postgres or queue call of the request throws. *)
Definition noInfraFailure (inf : Infra) : Prop :=
  inf.(inf_rl_ok) = true /\ is_Some inf.(inf_waiting) /\ inf.(inf_health_ok) = true /\
  inf.(inf_idem_get_ok) = true /\ inf.(inf_create_ok) = true /\
  inf.(inf_enqueue_ok) = true /\ inf.(inf_store_ok) = true.

(** The lifecycle DAG as the spec draws it (§4.3): the chain
    pending → routing → building → submitted → confirmed, and failed from
    any non-terminal state.  A persisted sequence is accepted when every
    step repeats the status or follows an edge. *)
Definition specDagEdge (a b : OrderStatus) : bool :=
  match a, b with
  | PENDING, ROUTING | ROUTING, BUILDING | BUILDING, SUBMITTED
  | SUBMITTED, CONFIRMED => true
  | (PENDING | ROUTING | BUILDING | SUBMITTED), FAILED => true
  | _, _ => false
  end.

Fixpoint specMonotonePath (l : list OrderStatus) : bool :=
  match l with
  | a :: ((b :: _) as rest) => (bool_decide (a = b) || specDagEdge a b) && specMonotonePath rest
  | _ => true
  end.

(** The price the worker expects from the chosen venue. *)
Definition expectedPriceOf (raydium meteora : IDexQuote) : Q :=
  match selectBestDex raydium meteora with
  | RAYDIUM => raydium.(q_price)
  | METEORA => meteora.(q_price)
  end.

(** Every venue call of the attempt that is reached fails with [m]: the
    quotes, or else the swap. *)
Definition venueFails (env : AttemptEnv) (m : ErrMsg) : Prop :=
  env.(env_quotes) = Throw m \/
  (exists q, env.(env_quotes) = Ok q /\ env.(env_swap) = Throw m).

(** Concrete inputs. *)
Definition quoteRaydium : IDexQuote := mkQuote RAYDIUM 100 (3#1000).
Definition quoteMeteora : IDexQuote := mkQuote METEORA (201#2) (2#1000).
Definition noDbError : Step -> option ErrMsg := fun _ => None.
Definition noPublishError : Step -> option ErrMsg := fun _ => None.
Definition requestSolUsdc : IOrderRequest := mkRequest "SOL" "USDC" 1 (1#1000).
Definition wsWithOrder (id : nat) (req : IOrderRequest) : WS :=
  mkWS (<[id := newRow req]> ∅) [] [].
Definition bodyOf (ty tin tout amt slip : string) : Body :=
  [("type", JStr ty); ("tokenIn", JStr tin); ("tokenOut", JStr tout);
   ("amount", JStr amt); ("slippage", JStr slip)].
Definition emptyAdm : AdmState := mkAdm ∅ ∅ ∅ [] 0.

(** A window holding 30 requests of [ip] made in the last minute before [now]. *)
Definition fullWindow (ip : string) (now : Z) : AdmState :=
  mkAdm {[ ip := map (fun k => (now - 1000 - Z.of_nat k)%Z) (seq 0 30) ]} ∅ ∅ [] 0.

(** Every Redis call of the admission checks throws. *)
Definition infraDown : Infra := mkInfra 5000 false None false false true true true.

(** A reply that, if successful, carries order [o]. *)
Definition okReplyFor (o : nat) (r : Reply) : Prop :=
  r.(rp_status) = 200 -> r.(rp_body) = RespOrder o.

(** A submission with key [k] and body [b] none of whose infrastructure calls throws. *)
Definition sameSubmission (k : string) (b : Body) (ir : Infra * HttpRequest) : Prop :=
  noInfraFailure ir.1 /\ ir.2.(hr_key) = Some k /\ ir.2.(hr_body) = b.

(** The statuses one attempt of [processOrder] may write, in order: a prefix
    of the steps of the [try] block, followed by [FAILED] when the catch
    block runs on the final attempt. *)
Definition attemptPrefixes : list (list OrderStatus) :=
  [[]; [ROUTING]; [ROUTING; ROUTING]; [ROUTING; ROUTING; BUILDING];
   [ROUTING; ROUTING; BUILDING; SUBMITTED];
   [ROUTING; ROUTING; BUILDING; SUBMITTED; CONFIRMED]].

Definition attemptShape (final : bool) (l : list OrderStatus) : bool :=
  existsb (fun p => bool_decide (l = p) || (final && bool_decide (l = p ++ [FAILED])))
    attemptPrefixes.


(** A row whose [failure_reason] is set exactly when it is failed, and
    whose [tx_hash] is set when it is confirmed. *)
Definition rowConsistent (r : OrderRow) : bool :=
  match r.(failure_reason), r.(status) with
  | Some _, FAILED => true
  | None, FAILED => false
  | Some _, _ => false
  | None, _ => true
  end &&
  match r.(status), r.(tx_hash) with
  | CONFIRMED, None => false
  | _, _ => true
  end.

(** A consistent row that is not failed (and has no failure reason). *)
Definition rowLive (r : OrderRow) : Prop :=
  r.(failure_reason) = None /\ r.(status) <> FAILED /\ rowConsistent r = true.

(** Attempt environments used below.  With [quoteRaydium] and
    [quoteMeteora] the router selects meteora (effective 100.299 against
    99.7) and expects 100.5. *)
Definition okEnv : AttemptEnv :=
  mkEnv (Ok (quoteRaydium, quoteMeteora)) (Ok (mkSwap "5xSig" (201#2) METEORA))
    noDbError noPublishError.
Definition slippageEnv : AttemptEnv :=
  mkEnv (Ok (quoteRaydium, quoteMeteora)) (Ok (mkSwap "5xSig" 95 METEORA))
    noDbError noPublishError.
Definition swapDownEnv : AttemptEnv :=
  mkEnv (Ok (quoteRaydium, quoteMeteora)) (Throw (MsgText "swap failed"))
    noDbError noPublishError.
Definition venueDownEnv : AttemptEnv :=
  mkEnv (Throw (MsgText "venue unavailable")) (Throw (MsgText "venue unavailable"))
    noDbError noPublishError.

(** No UPDATE and no publish of the attempt throws. *)
Definition infraOk (env : AttemptEnv) : Prop :=
  forall step, env.(env_db) step = None /\ env.(env_publish) step = None.

(** Whether one of the rows is confirmed. *)
Definition hasConfirmed (l : list OrderRow) : bool :=
  existsb (fun x => bool_decide (x.(status) = CONFIRMED)) l.

(** The rows written before the first confirmed one. *)
Fixpoint untilConfirmed (l : list OrderRow) : list OrderRow :=
  match l with
  | [] => []
  | r :: rest => match r.(status) with CONFIRMED => [] | _ => r :: untilConfirmed rest end
  end.

(** The statuses a worker operation persists, and those it publishes. *)
Definition opPersisted (o : WorkerOp) : list OrderStatus :=
  match o with OpUpdate st _ => [st] | OpNotify _ => [] end.
Definition opPublished (o : WorkerOp) : list OrderStatus :=
  match o with OpUpdate st ok => if ok then [st] else [] | OpNotify st => [st] end.

(** The statuses the worker still has to publish: the one persisted and
    not yet published, then those of the operations to come. *)
Definition pendingStatuses (s : SubState) : list OrderStatus :=
  option_list s.(ss_unpublished) ++ concat (map opPublished s.(ss_todo)).

(** The history the row will have once the worker is done, and what the
    client will have observed once every pending transition is published
    live. *)
Definition finalHistory (s : SubState) : list OrderStatus :=
  s.(ss_row).(sr_logs) ++ concat (map opPersisted s.(ss_todo)).
Definition eventualObserved (s : SubState) : list OrderStatus :=
  observed s.(ss_out) ++ pendingStatuses s.

(** The messages sent: an optional backfill, then one update per
    publication made while the listener was registered. *)
Definition liveUpdates (bus : list (OrderStatus * bool)) : list WsMsg :=
  map (fun p => StatusUpdate p.1) (List.filter snd bus).

Definition outShape (s : SubState) : Prop :=
  exists pre, s.(ss_out) = pre ++ liveUpdates s.(ss_bus) /\
    (s.(ss_conn) = CStart -> pre = []) /\
    (pre = [] \/ exists b l, pre = [Backfill b l]) /\
    (s.(ss_conn) <> CSubscribed -> List.filter snd s.(ss_bus) = []).

(* ================================================================== *)
(** ** Requests in sequence through the rate limiter *)




(* ================================================================== *)
(** ** MetricsService (services/metricsService.ts) *)

(** The [Metrics] record; latencies are [Date.now()] differences, integers. *)
Record Metrics := mkMetrics {
  orders_total : Z; orders_completed : Z; orders_failed : Z; orders_rejected : Z;
  quote_latency_sum : Z; quote_latency_count : Z;
  execution_latency_sum : Z; execution_latency_count : Z; queue_depth : Z }.

Definition initialMetrics : Metrics := mkMetrics 0 0 0 0 0 0 0 0 0.

(** The keys [increment] accepts: [keyof Omit<Metrics, 'queue_depth' |
    'quote_latency_sum' | 'execution_latency_sum'>]. *)
Inductive CounterKey :=
  | K_orders_total | K_orders_completed | K_orders_failed | K_orders_rejected
  | K_quote_latency_count | K_execution_latency_count.

#[global] Instance CounterKey_eq_dec : EqDecision CounterKey.
Proof. solve_decision. Defined.

Definition increment (metric : CounterKey) (m : Metrics) : Metrics :=
  let 'mkMetrics t c f r qs qc es ec d := m in
  match metric with
  | K_orders_total => mkMetrics (t + 1) c f r qs qc es ec d
  | K_orders_completed => mkMetrics t (c + 1) f r qs qc es ec d
  | K_orders_failed => mkMetrics t c (f + 1) r qs qc es ec d
  | K_orders_rejected => mkMetrics t c f (r + 1) qs qc es ec d
  | K_quote_latency_count => mkMetrics t c f r qs (qc + 1) es ec d
  | K_execution_latency_count => mkMetrics t c f r qs qc es (ec + 1) d
  end.

Inductive LatencyType := LQuote | LExecution.

#[global] Instance LatencyType_eq_dec : EqDecision LatencyType.
Proof. solve_decision. Defined.

Definition recordLatency (type : LatencyType) (latencyMs : Z) (m : Metrics) : Metrics :=
  let 'mkMetrics t c f r qs qc es ec d := m in
  match type with
  | LQuote => mkMetrics t c f r (qs + latencyMs) (qc + 1) es ec d
  | LExecution => mkMetrics t c f r qs qc (es + latencyMs) (ec + 1) d
  end.

Definition setQueueDepth (depth : Z) (m : Metrics) : Metrics :=
  let 'mkMetrics t c f r qs qc es ec _ := m in mkMetrics t c f r qs qc es ec depth.

Record MetricsSnapshot := mkSnapshot {
  snap_metrics : Metrics; quote_avg_latency : Q; execution_avg_latency : Q }.

Definition getMetrics (m : Metrics) : MetricsSnapshot :=
  mkSnapshot m
    (if (0 <? m.(quote_latency_count))%Z
     then inject_Z m.(quote_latency_sum) / inject_Z m.(quote_latency_count) else 0)%Q
    (if (0 <? m.(execution_latency_count))%Z
     then inject_Z m.(execution_latency_sum) / inject_Z m.(execution_latency_count) else 0)%Q.

(** Calls made on the singleton, in order. *)
Inductive MetricsCall :=
  | CallIncrement (metric : CounterKey)
  | CallRecordLatency (type : LatencyType) (latencyMs : Z)
  | CallSetQueueDepth (depth : Z).

Definition metricsCall (c : MetricsCall) (m : Metrics) : Metrics :=
  match c with
  | CallIncrement k => increment k m
  | CallRecordLatency ty l => recordLatency ty l m
  | CallSetQueueDepth d => setQueueDepth d m
  end.

Definition metricsRun (cs : list MetricsCall) : Metrics :=
  fold_left (fun m c => metricsCall c m) cs initialMetrics.

(** The latencies recorded with a given type, and their mean (0 for none). *)
Definition latenciesOf (ty : LatencyType) (cs : list MetricsCall) : list Z :=
  omap (fun c => match c with
                 | CallRecordLatency ty' l => if decide (ty' = ty) then Some l else None
                 | _ => None end) cs.

Definition meanLatency (l : list Z) : Q :=
  match l with
  | [] => 0%Q
  | _ => (inject_Z (foldr Z.add 0%Z l) / inject_Z (Z.of_nat (length l)))%Q
  end.

(** How many calls increment a given key, and the last queue depth set. *)
Definition incrementsOf (k : CounterKey) (cs : list MetricsCall) : nat :=
  length (List.filter (fun c => match c with
                                | CallIncrement k' => bool_decide (k' = k)
                                | _ => false end) cs).

Definition lastDepth (cs : list MetricsCall) : Z :=
  fold_left (fun d c => match c with CallSetQueueDepth d' => d' | _ => d end) cs 0%Z.

(** [increment(...)] calls of the latency counts themselves. *)
Definition noLatencyCountIncrement (cs : list MetricsCall) : Prop :=
  Forall (fun c => c <> CallIncrement K_quote_latency_count /\
                   c <> CallIncrement K_execution_latency_count) cs.

(* ================================================================== *)
(** ** Redis client options (config/redis.ts) *)

(** [retryStrategy]: [null] stops reconnecting, a number is the delay in ms. *)
Definition retryStrategy (times : Z) : option Z :=
  if (3 <? times)%Z then None else Some (Z.min (times * 200) 2000).

(* ================================================================== *)
(** ** SeededRandom (lib/dex/simulators.ts) *)

(** ECMAScript ToInt32. *)
Definition toInt32 (x : Z) : Z :=
  let m := (x mod 2 ^ 32)%Z in if (2 ^ 31 <=? m)%Z then (m - 2 ^ 32)%Z else m.

(** One round of [hashString]:
    [hash = ((hash << 5) - hash) + char; hash = hash & hash;].
    [<<] and [&] take their operands through ToInt32 and give an int32;
    [-] and [+] are exact on these magnitudes. *)
Definition hashStep (hash char : Z) : Z :=
  let h := (toInt32 (Z.shiftl (toInt32 hash) 5) - hash + char)%Z in
  toInt32 (Z.land (toInt32 h) (toInt32 h)).

(** [hashString] over the UTF-16 code units of the string ([charCodeAt]),
    ending in [Math.abs(hash)]. *)
Definition hashString (str : list Z) : Z := Z.abs (fold_left hashStep str 0%Z).

(** Java's [String.hashCode]: [s[0]*31^(n-1) + ... + s[n-1]] in int32. *)
Definition javaHashCode (str : list Z) : Z :=
  toInt32 (fold_left (fun h c => 31 * h + c)%Z str 0%Z).

(** [next()]: the seed becomes [(seed * 9301 + 49297) % 233280]
    (JavaScript's [%] truncates, as [Z.rem]) and [seed / 233280] is
    returned.  The seed of [new SeededRandom(config.MOCK_SEED)] is
    [hashString(MOCK_SEED)], an integer; the unseeded generator, whose seed
    is [Math.random() * 1000000], is not modelled. *)
Definition next (seed : Z) : Z * Q :=
  let seed' := Z.rem (seed * 9301 + 49297) 233280 in
  (seed', (inject_Z seed' / inject_Z 233280)%Q).

Definition nextSeed (seed : Z) : Z := (next seed).1.

(** The seed after [k] calls. *)
Definition seedAfter (k : nat) (seed : Z) : Z := Nat.iter k nextSeed seed.

Definition LCG_MODULUS : nat := Z.to_nat 233280.

(* ================================================================== *)
(** ** More of the order repository (models/order.ts) *)








(** Proof helpers for the LCG of [SeededRandom]: the seed map as an affine
    map on pairs (multiplier, offset) modulo 233280. *)
Definition lcgAffine (p : Z * Z) : Z * Z :=
  ((9301 * p.1) mod 233280, (9301 * p.2 + 49297) mod 233280)%Z.

(** [None] as soon as one of the next [n] affine maps may have a fixed
    point; otherwise the map reached after [n] steps. *)
Fixpoint periodRun (n : nat) (A C : Z) : option (Z * Z) :=
  match n with
  | O => Some (A, C)
  | S n' =>
      let A' := ((9301 * A) mod 233280)%Z in
      let C' := ((9301 * C + 49297) mod 233280)%Z in
      if (C' mod Z.gcd (A' - 1) 233280 =? 0)%Z then None else periodRun n' A' C'
  end.



(* ================================================================== *)

(** * Theorems *)

(** ** Rate limiter *)

Lemma retryAfterOf_window (now : Z) :
  retryAfterOf now (now - WINDOW_SIZE * 1000) = 0%Z.
Proof.
  unfold retryAfterOf.
  replace (now - (now - WINDOW_SIZE * 1000))%Z with 60000%Z by (unfold WINDOW_SIZE; lia).
  reflexivity.
Qed.

Lemma rateLimit_sent (inf : Infra) (ip : string) rl r rl' :
  rateLimitMiddleware inf ip rl = (Sent r, rl') ->
  r = mkReply 429 (RespError RATE_LIMITED (Some 0%Z)) (Some 0%Z).
Proof.
  unfold rateLimitMiddleware.
  destruct (inf_rl_ok inf); simpl; [|congruence].
  case_match; intros Hs; inversion Hs; subst.
  now rewrite retryAfterOf_window.
Qed.

Lemma backpressure_sent (inf : Infra) r :
  backpressureMiddleware inf = Sent r ->
  r = mkReply 503 (RespError SERVICE_UNAVAILABLE (Some 30%Z)) (Some 30%Z).
Proof.
  unfold backpressureMiddleware. repeat case_match; congruence.
Qed.

Lemma idempotency_sent (inf : Infra) key body idem r a :
  idempotencyMiddleware inf key body idem = (Sent r, a) ->
  (exists o, r = mkReply 200 (RespOrder o) None) \/
  r = mkReply 409 (RespError IDEMPOTENCY_CONFLICT None) None.
Proof.
  unfold idempotencyMiddleware. repeat case_match; intros Hs; inversion Hs; eauto.
Qed.

Lemma executeOrder_reply pf inf annot body st r st' :
  executeOrder pf inf annot body st = (r, st') ->
  r = mkReply 400 (RespError INVALID_BODY None) None \/ r = unavailable \/
  (exists o, r = mkReply 200 (RespOrder o) None).
Proof.
  unfold executeOrder. repeat case_match; intros Hs; inversion Hs; eauto.
Qed.

(** C10: on every 429 reply of [POST /api/orders/execute], the
    [Retry-After] header and [details.retryAfter] are both exactly 0: the
    window start is [now - WINDOW_SIZE * 1000], so
    [ceil(WINDOW_SIZE - (now - windowStart) / 1000)] is [ceil(0)]. *)
Theorem rate_limited_retry_after_zero (pf : string -> Q) (inf : Infra)
    (req : HttpRequest) (st st' : AdmState) (r : Reply)
    (Hrun : handleExecute pf inf req st = (r, st'))
    (H429 : r.(rp_status) = 429) :
  r.(rp_retryAfter) = Some 0%Z /\ r.(rp_body) = RespError RATE_LIMITED (Some 0%Z).
Proof.
  revert Hrun. unfold handleExecute, preHandlers, routeHandler.
  destruct (rateLimitMiddleware inf (hr_ip req) (as_rl st)) as [h1 rl'] eqn:Hrl.
  destruct h1 as [|r1].
  - destruct (backpressureMiddleware inf) as [|r2] eqn:Hbp.
    + destruct (idempotencyMiddleware _ _ _ _) as [[|r3] annot] eqn:Hid.
      * intros Hx. apply executeOrder_reply in Hx.
        destruct Hx as [->|[->|[o ->]]]; simpl in H429; discriminate.
      * intros Hx; inversion Hx; subst.
        apply idempotency_sent in Hid as [[o ->]| ->]; simpl in H429; discriminate.
    + intros Hx; inversion Hx; subst.
      apply backpressure_sent in Hbp as ->. simpl in H429; discriminate.
  - intros Hx; inversion Hx; subst.
    apply rateLimit_sent in Hrl as ->. split; reflexivity.
Qed.

Lemma rate_limited_retry_after_zero_witness :
  let '(r, _) := handleExecute parseDecimal (healthy 100000)
                   (mkHttp "10.0.0.1" None (bodyOf "market" "SOL" "USDC" "1.5" "0.25"))
                   (fullWindow "10.0.0.1" 100000) in
  r.(rp_retryAfter) = Some 0%Z /\ r.(rp_body) = RespError RATE_LIMITED (Some 0%Z).
Proof.
  destruct (handleExecute _ _ _ _) as [r st'] eqn:Hrun.
  apply (rate_limited_retry_after_zero _ _ _ _ _ _ Hrun).
  vm_compute in Hrun. inversion Hrun. reflexivity.
Defined.

Lemma setRl_same (st : AdmState) : setRl st st.(as_rl) = st.
Proof. destruct st; reflexivity. Qed.

(** C9: the three checks fail open.  When the Redis call of a check throws,
    the check lets the request through (and the rate limiter records
    nothing); when all three throw, the request is handled exactly as if
    there were no preHandlers and no Idempotency-Key. *)
Theorem admission_fails_open :
  (forall (inf : Infra) (ip : string) (rl : gmap string (list Z)),
     inf.(inf_rl_ok) = false -> rateLimitMiddleware inf ip rl = (Continue, rl)) /\
  (forall inf : Infra,
     inf.(inf_waiting) = None \/ inf.(inf_health_ok) = false ->
     backpressureMiddleware inf = Continue) /\
  (forall (inf : Infra) (key : option string) (body : Body) idem,
     inf.(inf_idem_get_ok) = false ->
     idempotencyMiddleware inf key body idem = (Continue, None)) /\
  (forall (pf : string -> Q) (inf : Infra) (req : HttpRequest) (st : AdmState),
     inf.(inf_rl_ok) = false ->
     inf.(inf_waiting) = None \/ inf.(inf_health_ok) = false ->
     inf.(inf_idem_get_ok) = false ->
     handleExecute pf inf req st = executeOrder pf inf None req.(hr_body) st).
Proof.
  assert (Hrl : forall (inf : Infra) (ip : string) (rl : gmap string (list Z)),
     inf.(inf_rl_ok) = false -> rateLimitMiddleware inf ip rl = (Continue, rl)).
  { intros inf ip rl H. unfold rateLimitMiddleware. now rewrite H. }
  assert (Hbp : forall inf : Infra,
     inf.(inf_waiting) = None \/ inf.(inf_health_ok) = false ->
     backpressureMiddleware inf = Continue).
  { intros inf [H|H]; unfold backpressureMiddleware; rewrite ?H; [reflexivity|].
    repeat case_match; congruence. }
  assert (Hid : forall (inf : Infra) (key : option string) (body : Body) idem,
     inf.(inf_idem_get_ok) = false ->
     idempotencyMiddleware inf key body idem = (Continue, None)).
  { intros inf key body idem H. unfold idempotencyMiddleware.
    destruct key as [k|]; [|reflexivity]. rewrite H. now destruct (String.eqb k ""). }
  split; [exact Hrl|]. split; [exact Hbp|]. split; [exact Hid|].
  intros pf inf req st H1 H2 H3.
  unfold handleExecute, preHandlers.
  rewrite (Hrl _ _ _ H1), (Hbp _ H2), (Hid _ _ _ _ H3), setRl_same. reflexivity.
Qed.

Lemma admission_fails_open_witness :
  handleExecute parseDecimal infraDown
    (mkHttp "10.0.0.1" (Some "K") (bodyOf "market" "SOL" "USDC" "1.5" "0.25")) emptyAdm =
  executeOrder parseDecimal infraDown None (bodyOf "market" "SOL" "USDC" "1.5" "0.25") emptyAdm.
Proof.
  destruct admission_fails_open as [_ [_ [_ Hpipe]]].
  apply Hpipe; [reflexivity | left; reflexivity | reflexivity].
Defined.

(** ** Order of the checks *)

Lemma executeOrder_rl pf inf annot body st r st' :
  executeOrder pf inf annot body st = (r, st') -> st'.(as_rl) = st.(as_rl).
Proof.
  unfold executeOrder. repeat case_match; intros Hs; inversion Hs; reflexivity.
Qed.

Lemma executeOrder_invalid pf inf annot body st r st' :
  executeOrder pf inf annot body st = (r, st') ->
  r.(rp_body) = RespError INVALID_BODY None -> validateOrderRequest pf body = None.
Proof.
  unfold executeOrder. repeat case_match; intros Hs; inversion Hs; subst; simpl;
    congruence.
Qed.

(** C8 (as the code does it): the preHandlers run rate limit, backpressure,
    idempotency, each ending the request with its reply (no order row, no
    job), and body validation comes last, in the handler.  Whatever the
    body, the rate limiter's sorted set is updated by every request that
    reaches it and its reply is the response when it rejects; an
    [invalid_body] reply means the rate-limit and backpressure checks let
    the request through. *)
Theorem admission_check_order (pf : string -> Q) (inf : Infra) (req : HttpRequest)
    (st st' : AdmState) (r : Reply)
    (Hrun : handleExecute pf inf req st = (r, st')) :
  let rlOut := rateLimitMiddleware inf req.(hr_ip) st.(as_rl) in
  let unchanged := st'.(as_orders) = st.(as_orders) /\ st'.(as_jobs) = st.(as_jobs) in
  st'.(as_rl) = rlOut.2 /\
  (forall r0, rlOut.1 = Sent r0 -> r = r0 /\ unchanged) /\
  (rlOut.1 = Continue -> forall r0, backpressureMiddleware inf = Sent r0 -> r = r0 /\ unchanged) /\
  (rlOut.1 = Continue -> backpressureMiddleware inf = Continue ->
     forall r0 a, idempotencyMiddleware inf req.(hr_key) req.(hr_body) st.(as_idem) = (Sent r0, a) ->
     r = r0 /\ unchanged) /\
  (r.(rp_body) = RespError INVALID_BODY None ->
     rlOut.1 = Continue /\ backpressureMiddleware inf = Continue /\
     validateOrderRequest pf req.(hr_body) = None).
Proof.
  intros rlOut unchanged. subst rlOut unchanged.
  revert Hrun. unfold handleExecute, preHandlers, routeHandler.
  destruct (rateLimitMiddleware inf (hr_ip req) (as_rl st)) as [h1 rl'] eqn:Hrl.
  cbn [fst snd]. destruct h1 as [|r1].
  - destruct (backpressureMiddleware inf) as [|r2] eqn:Hbp.
    + destruct (idempotencyMiddleware _ _ _ _) as [[|r3] annot] eqn:Hid.
      * intros Hx. split; [apply executeOrder_rl in Hx; exact Hx|].
        split; [discriminate|]. split; [intros _ r0; discriminate|].
        split.
        { intros _ _ r0 a Ha. change (as_idem (setRl st rl')) with (as_idem st) in Hid. congruence. }
        intros Hinv. split; [reflexivity|]. split; [reflexivity|].
        exact (executeOrder_invalid _ _ _ _ _ _ _ Hx Hinv).
      * intros Hx; inversion Hx; subst. split; [reflexivity|].
        split; [discriminate|]. split; [intros _ r0; discriminate|].
        split.
        { intros _ _ r0 a Ha. change (as_idem (setRl st rl')) with (as_idem st) in Hid.
          inversion Ha; subst. auto. }
        intros Hinv.
        apply idempotency_sent in Hid as [[o ->]| ->]; discriminate.
    + intros Hx; inversion Hx; subst. split; [reflexivity|].
      split; [discriminate|].
      split; [intros _ r0 Hr0; inversion Hr0; subst; auto|].
      split; [intros _ Hc; discriminate Hc|].
      intros Hinv. apply backpressure_sent in Hbp as ->. discriminate.
  - intros Hx; inversion Hx; subst. split; [reflexivity|].
    split; [intros r0 Hr0; inversion Hr0; subst; auto|].
    split; [intros Hc; discriminate Hc|].
    split; [intros Hc; discriminate Hc|].
    intros Hinv. apply rateLimit_sent in Hrl as ->. discriminate.
Qed.

Lemma admission_check_order_witness :
  let '(r, st') := handleExecute parseDecimal (healthy 100000)
                     (mkHttp "10.0.0.1" None (bodyOf "limit" "SOL" "SOL" "0" "2"))
                     (fullWindow "10.0.0.1" 100000) in
  st'.(as_rl) = (rateLimitMiddleware (healthy 100000) "10.0.0.1"
                   (fullWindow "10.0.0.1" 100000).(as_rl)).2.
Proof.
  destruct (handleExecute _ _ _ _) as [r st'] eqn:Hrun.
  exact (proj1 (admission_check_order _ _ _ _ _ _ Hrun)).
Defined.

(** C8 as stated fails: a request whose body is invalid, from an IP that
    already has 30 requests in the window, gets [rate_limited] (not
    [invalid_body]) and adds a 31st entry to the IP's window; and the same
    invalid body sent with an [Idempotency-Key] whose unexpired record was
    stored for another body gets [idempotency_conflict], as the
    idempotency check also runs before validation. *)
Lemma invalid_body_from_limited_ip_gets_rate_limited :
  let body := bodyOf "limit" "SOL" "SOL" "0" "2" in
  (let '(r, st') := handleExecute parseDecimal (healthy 100000)
                      (mkHttp "10.0.0.1" None body) (fullWindow "10.0.0.1" 100000) in
   validateOrderRequest parseDecimal body = None /\
   r.(rp_status) = 429 /\ r.(rp_body) = RespError RATE_LIMITED (Some 0%Z) /\
   length (default [] (st'.(as_rl) !! "10.0.0.1")) = 31) /\
  (let stored := storeIdempotencyResult 0%Z "K"
                   (hashBody (bodyOf "market" "SOL" "USDC" "1.5" "0.25")) 0 ∅ in
   let '(r, st') := handleExecute parseDecimal (healthy 1000)
                      (mkHttp "10.0.0.2" (Some "K") body)
                      (mkAdm ∅ stored ∅ [] 1) in
   r = mkReply 409 (RespError IDEMPOTENCY_CONFLICT None) None /\ st'.(as_jobs) = []).
Proof. vm_compute. repeat split. Qed.

(** ** Request validation *)

Lemma typeOk_spec v t :
  typeOk v = Some t <-> v = Some (JStr "market") /\ t = "market".
Proof.
  unfold typeOk. split.
  - destruct v as [[s| | |]|]; try discriminate.
    destruct (String.eqb s "market") eqn:E; [|discriminate].
    apply String.eqb_eq in E. intros Hs; inversion Hs; subst. auto.
  - intros [-> ->]. reflexivity.
Qed.

Lemma tokenOk_spec v t :
  tokenOk v = Some t <-> v = Some (JStr t) /\ (1 <= utf16Length t <= 64)%nat.
Proof.
  unfold tokenOk. split.
  - destruct v as [[s| | |]|]; try discriminate.
    destruct ((1 <=? utf16Length s) && (utf16Length s <=? 64)) eqn:E; [|discriminate].
    apply andb_true_iff in E as [E1 E2]. apply Nat.leb_le in E1, E2.
    intros Hs; inversion Hs; subst. auto.
  - intros [-> [H1 H2]]. apply Nat.leb_le in H1, H2. now rewrite H1, H2.
Qed.

Lemma amountOk_spec pf v a :
  amountOk pf v = Some a <->
  v = Some (JStr a) /\ amountRegex a = true /\ (0 < pf a)%Q.
Proof.
  unfold amountOk. split.
  - destruct v as [[s| | |]|]; try discriminate.
    destruct (amountRegex s && negb (Qle_bool (pf s) 0)) eqn:E; [|discriminate].
    apply andb_true_iff in E as [E1 E2]. apply negb_true_iff in E2.
    intros Hs; inversion Hs; subst. repeat split; auto.
    apply Qnot_le_lt. intros Hle. apply Qle_bool_iff in Hle. congruence.
  - intros [-> [H1 H2]]. rewrite H1. simpl.
    destruct (Qle_bool (pf a) 0) eqn:E; [|reflexivity].
    apply Qle_bool_iff in E. exfalso. exact (Qlt_not_le _ _ H2 E).
Qed.

Lemma slippageOk_spec pf v sl :
  slippageOk pf v = Some sl <->
  v = Some (JStr sl) /\ slippageRegex sl = true /\ (0 <= pf sl)%Q /\ (pf sl <= 1#2)%Q.
Proof.
  unfold slippageOk. split.
  - destruct v as [[s| | |]|]; try discriminate.
    destruct (slippageRegex s && Qle_bool 0 (pf s) && Qle_bool (pf s) (1#2)) eqn:E;
      [|discriminate].
    apply andb_true_iff in E as [E E3]. apply andb_true_iff in E as [E1 E2].
    apply Qle_bool_iff in E2, E3.
    intros Hs; inversion Hs; subst. auto.
  - intros [-> [H1 [H2 H3]]]. apply Qle_bool_iff in H2, H3. now rewrite H1, H2, H3.
Qed.

Lemma validateOrderRequest_spec pf b d :
  validateOrderRequest pf b = Some d <->
  typeOk (field "type" b) = Some d.(in_type) /\
  tokenOk (field "tokenIn" b) = Some d.(in_tokenIn) /\
  tokenOk (field "tokenOut" b) = Some d.(in_tokenOut) /\
  amountOk pf (field "amount" b) = Some d.(in_amount) /\
  slippageOk pf (field "slippage" b) = Some d.(in_slippage).
Proof.
  unfold validateOrderRequest. split.
  - repeat case_match; intros Hs; inversion Hs; subst; simpl; auto; discriminate.
  - destruct d; simpl. intros (-> & -> & -> & -> & ->). reflexivity.
Qed.

(** C7 (what the code accepts): [executeOrderSchema] accepts a body exactly when [type] is
    ["market"], [tokenIn] and [tokenOut] are strings of 1 to 64 UTF-16 code
    units, [amount] matches [/^\d+\.?\d*$/] with [parseFloat] > 0,
    and [slippage] matches [/^0?\.\d+$|^0$/] with 0 <= [parseFloat] <= 0.5;
    [tokenIn] and [tokenOut] are not compared.  A rejected body gets 400
    [invalid_body] and nothing is written. *)
Theorem validation_accepts_exactly :
  (forall (pf : string -> Q) (b : Body) (d : ExecuteOrderInput),
     validateOrderRequest pf b = Some d <->
     field "type" b = Some (JStr "market") /\ d.(in_type) = "market" /\
     field "tokenIn" b = Some (JStr d.(in_tokenIn)) /\
     (1 <= utf16Length d.(in_tokenIn) <= 64)%nat /\
     field "tokenOut" b = Some (JStr d.(in_tokenOut)) /\
     (1 <= utf16Length d.(in_tokenOut) <= 64)%nat /\
     field "amount" b = Some (JStr d.(in_amount)) /\
     amountRegex d.(in_amount) = true /\ (0 < pf d.(in_amount))%Q /\
     field "slippage" b = Some (JStr d.(in_slippage)) /\
     slippageRegex d.(in_slippage) = true /\
     (0 <= pf d.(in_slippage))%Q /\ (pf d.(in_slippage) <= 1#2)%Q) /\
  (forall (pf : string -> Q) (inf : Infra) annot (b : Body) (st : AdmState),
     validateOrderRequest pf b = None ->
     executeOrder pf inf annot b st = (mkReply 400 (RespError INVALID_BODY None) None, st)).
Proof.
  split.
  - intros pf b d. rewrite validateOrderRequest_spec, typeOk_spec, !tokenOk_spec,
      amountOk_spec, slippageOk_spec. tauto.
  - intros pf inf annot b st H. unfold executeOrder. now rewrite H.
Qed.

(** C7: the schema never compares [tokenIn] with [tokenOut].  A body with
    [tokenIn = tokenOut = "SOL"] (and the other fields valid) is accepted,
    and the handler creates an order, enqueues it and replies 200, where
    the claim requires [invalid_body]. *)
Lemma same_token_body_accepted :
  let body := bodyOf "market" "SOL" "SOL" "1.5" "0.25" in
  validateOrderRequest parseDecimal body = Some (mkInput "market" "SOL" "SOL" "1.5" "0.25") /\
  let '(r, st') := handleExecute parseDecimal (healthy 0) (mkHttp "10.0.0.1" None body) emptyAdm in
  r = mkReply 200 (RespOrder 0) None /\ st'.(as_jobs) = [0] /\ is_Some (st'.(as_orders) !! 0).
Proof. vm_compute. repeat split. eexists. reflexivity. Qed.

(** ** Idempotent admission *)

Lemma preHandlers_state inf req st pre st' :
  preHandlers inf req st = (pre, st') ->
  st' = setRl st (rateLimitMiddleware inf req.(hr_ip) st.(as_rl)).2.
Proof.
  unfold preHandlers. destruct (rateLimitMiddleware _ _ _) as [h1 rl'].
  repeat case_match; intros Hs; inversion Hs; reflexivity.
Qed.

Lemma idempotency_hit inf k b idem d exp :
  inf.(inf_idem_get_ok) = true -> k <> "" -> idem !! k = Some (d, exp) ->
  (inf.(inf_now) <= exp)%Z ->
  idempotencyMiddleware inf (Some k) b idem =
  (if decide (d.(idem_bodyHash) = hashBody b)
   then Sent (mkReply 200 (RespOrder d.(idem_orderId)) None)
   else Sent (mkReply 409 (RespError IDEMPOTENCY_CONFLICT None) None), None).
Proof.
  intros Hget Hk Hd Hexp. unfold idempotencyMiddleware, redisGet.
  destruct (String.eqb k "") eqn:E; [apply String.eqb_eq in E; contradiction|].
  rewrite Hget, Hd. simpl. apply Z.leb_le in Hexp. rewrite Hexp. now destruct (decide _).
Qed.

(** One request, the key's record present with the same body. *)
Lemma handle_with_record pf inf req st k b o exp r st' :
  inf.(inf_idem_get_ok) = true -> k <> "" ->
  req.(hr_key) = Some k -> req.(hr_body) = b ->
  st.(as_idem) !! k = Some (mkIdem o b, exp) -> (inf.(inf_now) <= exp)%Z ->
  handleExecute pf inf req st = (r, st') ->
  st' = setRl st (rateLimitMiddleware inf req.(hr_ip) st.(as_rl)).2 /\ okReplyFor o r.
Proof.
  intros Hget Hk Hkey Hb Hrec Hexp. unfold handleExecute.
  destruct (preHandlers inf req st) as [pre st1] eqn:Hpre.
  pose proof (preHandlers_state _ _ _ _ _ Hpre) as Hst1.
  revert Hpre. unfold preHandlers.
  destruct (rateLimitMiddleware inf (hr_ip req) (as_rl st)) as [h1 rl'] eqn:Hrl.
  destruct h1 as [|r1].
  - destruct (backpressureMiddleware inf) as [|r2] eqn:Hbp.
    + rewrite Hkey, Hb. cbn [setRl as_idem].
      rewrite (idempotency_hit inf k b _ (mkIdem o b) exp Hget Hk Hrec Hexp).
      simpl. rewrite decide_True by reflexivity.
      intros Hs; inversion Hs; subst. simpl. intros Hr; inversion Hr; subst.
      split; [reflexivity|]. intros _. reflexivity.
    + intros Hs; inversion Hs; subst. simpl. intros Hr; inversion Hr; subst.
      split; [reflexivity|]. apply backpressure_sent in Hbp as ->. intros Hc; discriminate.
  - intros Hs; inversion Hs; subst. simpl. intros Hr; inversion Hr; subst.
    split; [reflexivity|]. apply rateLimit_sent in Hrl as ->. intros Hc; discriminate.
Qed.

(** One request, no record for the key yet. *)
Lemma handle_without_record pf inf req st k b r st' :
  noInfraFailure inf -> k <> "" ->
  req.(hr_key) = Some k -> req.(hr_body) = b ->
  st.(as_idem) !! k = None ->
  handleExecute pf inf req st = (r, st') ->
  (st'.(as_orders) = st.(as_orders) /\ st'.(as_jobs) = st.(as_jobs) /\
   st'.(as_idem) = st.(as_idem) /\ st'.(as_next) = st.(as_next) /\ r.(rp_status) <> 200)
  \/
  (exists d, r = mkReply 200 (RespOrder st.(as_next)) None /\
   st'.(as_orders) = <[st.(as_next) := d]> st.(as_orders) /\
   st'.(as_jobs) = st.(as_jobs) ++ [st.(as_next)] /\
   st'.(as_idem) = storeIdempotencyResult inf.(inf_now) k b st.(as_next) st.(as_idem) /\
   st'.(as_next) = S st.(as_next)).
Proof.
  intros (Hrl_ok & _ & _ & Hget & Hcr & Henq & Hsto) Hk Hkey Hb Hnone.
  unfold handleExecute, preHandlers.
  destruct (rateLimitMiddleware inf (hr_ip req) (as_rl st)) as [h1 rl'] eqn:Hrl.
  destruct h1 as [|r1].
  - destruct (backpressureMiddleware inf) as [|r2] eqn:Hbp.
    + rewrite Hkey, Hb. unfold idempotencyMiddleware, redisGet.
      destruct (String.eqb k "") eqn:E; [apply String.eqb_eq in E; contradiction|].
      rewrite Hget. simpl. rewrite Hnone. simpl.
      unfold executeOrder. rewrite Hb.
      destruct (validateOrderRequest pf b) as [d|] eqn:Hv.
      * rewrite Hcr, Henq, Hsto. simpl. intros Hs; inversion Hs; subst.
        right. exists d. repeat split.
      * simpl. intros Hs; inversion Hs; subst. left. repeat split. simpl. discriminate.
    + simpl. intros Hs; inversion Hs; subst. left. repeat split.
      apply backpressure_sent in Hbp as ->. simpl. discriminate.
  - simpl. intros Hs; inversion Hs; subst. left. repeat split.
    apply rateLimit_sent in Hrl as ->. simpl. discriminate.
Qed.

Lemma sequential_after_record pf k b o exp reqs st :
  k <> "" -> st.(as_idem) !! k = Some (mkIdem o b, exp) ->
  Forall (sameSubmission k b) reqs ->
  Forall (fun ir => (ir.1.(inf_now) <= exp)%Z) reqs ->
  let '(rs, st') := handleSequential pf reqs st in
  st'.(as_orders) = st.(as_orders) /\ st'.(as_jobs) = st.(as_jobs) /\
  Forall (okReplyFor o) rs.
Proof.
  intros Hk. revert st. induction reqs as [|[inf req] rest IH]; intros st Hrec Hall Htime.
  - simpl. auto.
  - inversion Hall as [|? ? [Hinf [Hkey Hb]] Hrest]; subst.
    inversion Htime as [|? ? Ht Htrest]; subst. simpl.
    destruct (handleExecute pf inf req st) as [r st1] eqn:Hrun.
    destruct Hinf as (_ & _ & _ & Hget & _).
    destruct (handle_with_record _ _ _ _ _ _ _ _ _ _ Hget Hk Hkey eq_refl Hrec Ht Hrun)
      as [Hst1 Hok].
    specialize (IH st1).
    destruct (handleSequential pf rest st1) as [rs st2].
    subst st1. destruct IH as (Ho & Hj & Hf); [exact Hrec|exact Hrest|exact Htrest|].
    split; [exact Ho|]. split; [exact Hj|]. constructor; assumption.
Qed.

(** C1 (as the code does it).  With an unexpired record for the key (the
    record lives [IDEMPOTENCY_TTL] = 300 s) and a [GET] that succeeds: same
    body gives 200 with the stored orderId, a different body 409; a reply
    sent by a preHandler writes no row and no job.  Submissions with one
    key and one body handled one after the other, all within 300 s of a
    time [t0] and none of whose Redis, Postgres or queue calls fails,
    create at most one row and one job (exactly one if any of them got
    200), and every 200 carries that row's id. *)
Theorem idempotent_admission_sequential :
  (forall (inf : Infra) (k : string) (b : Body) (idem : IdemStore) (d : IdempotencyData)
          (exp : Z),
     inf.(inf_idem_get_ok) = true -> k <> "" -> idem !! k = Some (d, exp) ->
     (inf.(inf_now) <= exp)%Z ->
     idempotencyMiddleware inf (Some k) b idem =
       (if decide (d.(idem_bodyHash) = hashBody b)
        then Sent (mkReply 200 (RespOrder d.(idem_orderId)) None)
        else Sent (mkReply 409 (RespError IDEMPOTENCY_CONFLICT None) None), None)) /\
  (forall (pf : string -> Q) (inf : Infra) (req : HttpRequest) (st st' : AdmState) (r : Reply),
     preHandlers inf req st = (inl r, st') ->
     handleExecute pf inf req st = (r, st') /\
     st'.(as_orders) = st.(as_orders) /\ st'.(as_jobs) = st.(as_jobs)) /\
  (forall (pf : string -> Q) (reqs : list (Infra * HttpRequest)) (st : AdmState)
          (k : string) (b : Body) (t0 : Z),
     k <> "" -> st.(as_idem) !! k = None ->
     (forall n, st.(as_next) <= n -> st.(as_orders) !! n = None) ->
     Forall (sameSubmission k b) reqs ->
     Forall (fun ir => t0 <= ir.1.(inf_now) <= t0 + IDEMPOTENCY_TTL * 1000)%Z reqs ->
     let '(rs, st') := handleSequential pf reqs st in
     (st'.(as_orders) = st.(as_orders) /\ st'.(as_jobs) = st.(as_jobs) /\
      Forall (fun r => r.(rp_status) <> 200) rs)
     \/
     (exists o d, st.(as_orders) !! o = None /\
        st'.(as_orders) = <[o := d]> st.(as_orders) /\
        st'.(as_jobs) = st.(as_jobs) ++ [o] /\
        Forall (okReplyFor o) rs /\
        mkReply 200 (RespOrder o) None ∈ rs)).
Proof.
  split; [exact idempotency_hit|].
  split.
  { intros pf inf req st st' r Hpre. unfold handleExecute. rewrite Hpre.
    split; [reflexivity|]. apply preHandlers_state in Hpre as ->.
    split; reflexivity. }
  intros pf reqs. induction reqs as [|[inf req] rest IH];
    intros st k b t0 Hk Hnone Hfresh Hall Htime.
  - simpl. left. auto.
  - inversion Hall as [|? ? [Hinf [Hkey Hb]] Hrest]; subst.
    inversion Htime as [|? ? Ht Htrest]; subst. simpl in Ht. simpl.
    destruct (handleExecute pf inf req st) as [r st1] eqn:Hrun.
    destruct (handle_without_record _ _ _ _ _ _ _ _ Hinf Hk Hkey eq_refl Hnone Hrun)
      as [(Ho & Hj & Hi & Hn & Hr) | (d & -> & Ho & Hj & Hi & Hn)].
    + specialize (IH st1 k (hr_body req) t0 Hk).
      destruct (handleSequential pf rest st1) as [rs st2].
      destruct IH as [(Ho2 & Hj2 & Hf) | (o & d & Hfr & Ho2 & Hj2 & Hf & Hin)].
      * rewrite Hi; exact Hnone.
      * intros n Hle. rewrite Ho. apply Hfresh. lia.
      * exact Hrest.
      * exact Htrest.
      * left. rewrite Ho2, Ho, Hj2, Hj.
        split; [reflexivity|]. split; [reflexivity|]. constructor; assumption.
      * right. exists o, d. rewrite Ho in Hfr, Ho2. rewrite Hj in Hj2.
        split; [exact Hfr|]. split; [exact Ho2|]. split; [exact Hj2|].
        split; [constructor; [intros Hc; contradiction|exact Hf]|].
        apply elem_of_cons. right. exact Hin.
    + pose proof (sequential_after_record pf k (hr_body req) (as_next st)
                    (inf_now inf + IDEMPOTENCY_TTL * 1000)%Z rest st1 Hk) as Hafter.
      destruct (handleSequential pf rest st1) as [rs st2].
      destruct Hafter as (Ho2 & Hj2 & Hf).
      * rewrite Hi. apply lookup_insert_eq.
      * exact Hrest.
      * eapply Forall_impl; [exact Htrest|]. intros ir Hir. simpl in Hir. lia.
      * right. exists (as_next st), d. rewrite Ho2, Hj2.
        split; [apply Hfresh; lia|]. split; [exact Ho|]. split; [exact Hj|].
        split; [constructor; [intros _; reflexivity | exact Hf]|].
        apply elem_of_cons. left. reflexivity.
Qed.

Lemma idempotent_admission_sequential_witness :
  let body := bodyOf "market" "SOL" "USDC" "1.5" "0.25" in
  let req := mkHttp "10.0.0.1" (Some "K") body in
  let '(rs, st') := handleSequential parseDecimal
                      [(healthy 1000, req); (healthy 2000, req); (healthy 3000, req)] emptyAdm in
  (st'.(as_orders) = emptyAdm.(as_orders) /\ st'.(as_jobs) = emptyAdm.(as_jobs) /\
   Forall (fun r => r.(rp_status) <> 200) rs)
  \/
  (exists o d, emptyAdm.(as_orders) !! o = None /\
     st'.(as_orders) = <[o := d]> emptyAdm.(as_orders) /\
     st'.(as_jobs) = emptyAdm.(as_jobs) ++ [o] /\
     Forall (okReplyFor o) rs /\ mkReply 200 (RespOrder o) None ∈ rs).
Proof.
  apply (proj2 (proj2 idempotent_admission_sequential) parseDecimal _ emptyAdm "K"
           (bodyOf "market" "SOL" "USDC" "1.5" "0.25") 1000%Z).
  - discriminate.
  - reflexivity.
  - intros n _. reflexivity.
  - repeat constructor; eexists; reflexivity.
  - repeat constructor; simpl; unfold IDEMPOTENCY_TTL; lia.
Defined.

(** C1 as stated fails: two submissions with the same key and body whose
    idempotency lookups both run before either handler stores the record
    (the lookup is a plain [GET]; the record is [SET] after the order is
    created) both get 200, with two different orderIds, and two rows and
    two jobs are created. *)
Lemma concurrent_same_key_creates_two_orders :
  let req := mkHttp "10.0.0.1" (Some "K") (bodyOf "market" "SOL" "USDC" "1.5" "0.25") in
  let '(rs, st') := handleTwoInterleaved parseDecimal (healthy 1000) (healthy 1001) req req emptyAdm in
  rs = [mkReply 200 (RespOrder 0) None; mkReply 200 (RespOrder 1) None] /\
  st'.(as_jobs) = [0; 1] /\ size st'.(as_orders) = 2.
Proof. vm_compute. repeat split. Qed.

(** ** The worker: evaluating one attempt *)

Lemma W_bind_unfold {A B} (m : W A) (k : A -> W B) s :
  (m ≫= k) s = match m s with (Ok a, s') => k a s' | (Throw e, s') => (Throw e, s') end.
Proof. reflexivity. Qed.

Lemma dbw_ok env step id f s r :
  env.(env_db) step = None -> s.(ws_db) !! id = Some r ->
  dbw env step (updateWhereId id f) s =
  (Ok tt, mkWS (<[id := f r]> s.(ws_db)) s.(ws_pub) (s.(ws_trace) ++ [f r])).
Proof. intros He H. unfold dbw, updateWhereId. rewrite He, H. reflexivity. Qed.

Lemma dbw_err env step f s e :
  env.(env_db) step = Some e -> dbw env step f s = (Throw e, s).
Proof. intros He. unfold dbw. rewrite He. reflexivity. Qed.

Lemma pub_none env step id st e s :
  env.(env_publish) step = None ->
  publishStatus env step id st e s =
  (Ok tt, mkWS s.(ws_db) (s.(ws_pub) ++ [mkBus id st e]) s.(ws_trace)).
Proof. intros H. unfold publishStatus. rewrite H. reflexivity. Qed.

Lemma pub_some env step id st e s e' :
  env.(env_publish) step = Some e' -> publishStatus env step id st e s = (Throw e', s).
Proof. intros H. unfold publishStatus. rewrite H. reflexivity. Qed.

Lemma wlift_unfold {A} (x : Res A) s : wlift x s = (x, s).
Proof. reflexivity. Qed.

Lemma wthrow_unfold {A} e s : @wthrow A e s = (Throw e, s).
Proof. reflexivity. Qed.

(** One await of the attempt: bind, an UPDATE of an existing row or a
    publish whose outcome is known, a settled promise, a throw. *)
Ltac wstep :=
  first
  [ rewrite W_bind_unfold
  | erewrite dbw_ok by first [ eassumption
                             | cbn [ws_db]; first [apply lookup_insert_eq | eassumption] ]
  | erewrite dbw_err by eassumption
  | rewrite pub_none by eassumption
  | erewrite pub_some by eassumption
  | rewrite wlift_unfold
  | rewrite wthrow_unfold
  | match goal with
    | H : (checkSlippage ?x ?y ?z).1 = _ |- context [(checkSlippage ?x ?y ?z).1] => rewrite H
    end
  ]; cbv beta iota zeta delta [negb ws_db ws_pub ws_trace status token_in token_out
                               amount_in slippage amount_out dex_used tx_hash
                               failure_reason raydium_quote meteora_quote logs].

(** Case analysis on the next unknown outcome. *)
Ltac wcase :=
  match goal with
  | |- context [env_quotes ?e] => destruct (env_quotes e) as [[?q1 ?q2]|?err]
  | |- context [env_swap ?e] => destruct (env_swap e) as [?sw|?err]
  | |- context [dbw ?e ?st _ _] =>
      lazymatch goal with
      | _ : env_db e st = _ |- _ => fail
      | _ => destruct (env_db e st) eqn:?
      end
  | |- context [publishStatus ?e ?st _ _ _ _] =>
      lazymatch goal with
      | _ : env_publish e st = _ |- _ => fail
      | _ => destruct (env_publish e st) eqn:?
      end
  | |- context [if ?b then _ else _] => destruct b eqn:?
  end.

Ltac wrun := repeat (first [wstep | wcase]).

Ltac unfold_attempt :=
  unfold processOrder, wcatch, processOrderBody;
  unfold updateOrderStatus, updateOrderRouting, updateOrderConfirmed, updateOrderFailed.

(** The trace of the attempt is the old trace followed by the rows it wrote. *)
Ltac trace_ext :=
  cbn [ws_trace]; rewrite <- ?app_assoc; first [reflexivity | symmetry; apply app_nil_r].

(** Every attempt, whatever its external calls do, writes a sequence of
    statuses of [attemptShape]. *)
Lemma processOrder_shape env a id req s r :
  s.(ws_db) !! id = Some r ->
  let '(res, s') := processOrder env a id req s in
  is_Some (s'.(ws_db) !! id) /\
  exists l, s'.(ws_trace) = s.(ws_trace) ++ l /\
            attemptShape (MAX_RETRIES <=? a + 1) (map status l) = true.
Proof.
  destruct s as [db0 pub0 tr0]. cbn [ws_db] in *.
  intros Hr. unfold_attempt. wrun.
  all: split; [cbn [ws_db]; first [rewrite lookup_insert_eq | rewrite Hr]; eauto|].
  all: eexists; split; [trace_ext|].
  all: destruct (MAX_RETRIES <=? a + 1); reflexivity.
Qed.

(** The consistency of rows is kept by every attempt that starts on a live
    row; the row is failed only on the final attempt; a row without
    [tx_hash] keeps it null until the confirmation. *)
Lemma processOrder_consistent env a id req s r :
  s.(ws_db) !! id = Some r -> rowLive r ->
  let '(res, s') := processOrder env a id req s in
  exists l r', s'.(ws_trace) = s.(ws_trace) ++ l /\ s'.(ws_db) !! id = Some r' /\
    Forall (fun x => rowConsistent x = true) l /\ rowConsistent r' = true /\
    (r'.(status) <> FAILED -> rowLive r') /\
    (r'.(status) = FAILED -> MAX_RETRIES <= a + 1) /\
    (r.(tx_hash) = None ->
       Forall (fun x => x.(tx_hash) = None) (untilConfirmed l) /\
       (hasConfirmed l = false -> r'.(tx_hash) = None)).
Proof.
  destruct r as [st0 ti to ai sl ao du tx fr rq mq lg].
  intros Hr (Hf & Hnf & Hc). cbn in Hf, Hnf. subst fr.
  destruct s as [db0 pub0 tr0]. cbn [ws_db] in *.
  unfold_attempt. wrun.
  all: eexists; eexists; split; [trace_ext|].
  all: split; [cbn [ws_db]; first [apply lookup_insert_eq | exact Hr]|].
  all: unfold rowLive; cbn.
  all: split; [repeat constructor|].
  all: split; [first [reflexivity | exact Hc]|].
  all: split; [first [ intros Hx; exfalso; apply Hx; reflexivity
                     | intros _; split; [reflexivity | split; [first [discriminate | exact Hnf]
                                                             | first [reflexivity | exact Hc]]]]|].
  all: split; [first [intros Hx; discriminate | intros _; apply Nat.leb_le; assumption
                     | intros Hx; contradiction]|].
  all: intros Htx; subst tx; split; [repeat constructor|].
  all: first [intros _; reflexivity | intros Hx; discriminate Hx].
Qed.

(** An attempt whose quotes or swap fail with [m] throws; on the final
    attempt it leaves the row failed unless that UPDATE throws; with no
    UPDATE or publish throwing, the error is [m]. *)
Lemma venue_attempt env a id req s r m :
  s.(ws_db) !! id = Some r -> venueFails env m ->
  exists e s' r', processOrder env a id req s = (Throw e, s') /\ s'.(ws_db) !! id = Some r' /\
    (MAX_RETRIES <= a + 1 -> env.(env_db) StepFailed = None ->
       r'.(status) = FAILED /\
       (env.(env_publish) StepFailed = None -> r'.(failure_reason) = Some e)) /\
    (infraOk env -> e = m).
Proof.
  intros Hr Hv.
  destruct r as [st0 ti to ai sl ao du tx fr rq mq lg].
  destruct s as [db0 pub0 tr0]. cbn [ws_db] in *.
  unfold_attempt.
  destruct Hv as [Hq | ([q1 q2] & Hq & Hs)]; rewrite Hq; [|rewrite Hs]; wrun.
  all: eexists; eexists; eexists; split; [reflexivity|].
  all: split; [cbn [ws_db]; first [apply lookup_insert_eq | exact Hr]|].
  all: split; [intros Hle Hdb; first [ apply Nat.leb_le in Hle; congruence
                                     | congruence
                                     | split; [reflexivity|];
                                       intros Hp; first [reflexivity | congruence]]|].
  all: intros Hinf; first
         [ reflexivity
         | exfalso; match goal with
                    | H : env_db _ ?st = Some _ |- _ => destruct (Hinf st) as [Hx _]; congruence
                    | H : env_publish _ ?st = Some _ |- _ =>
                        destruct (Hinf st) as [_ Hx]; congruence
                    end ].
Qed.

(** An attempt whose swap breaks the slippage bound, its routing and
    building steps going through. *)
Lemma slippage_attempt env a id req s r q1 q2 sw :
  s.(ws_db) !! id = Some r ->
  (forall step, step = StepRouting \/ step = StepRouted \/ step = StepBuilding ->
     env.(env_db) step = None /\ env.(env_publish) step = None) ->
  env.(env_quotes) = Ok (q1, q2) -> env.(env_swap) = Ok sw ->
  (checkSlippage (expectedPriceOf q1 q2) sw.(sw_executedPrice) req.(rq_slippage)).1 = false ->
  let err := MsgSlippage
               (checkSlippage (expectedPriceOf q1 q2) sw.(sw_executedPrice) req.(rq_slippage)).2
               req.(rq_slippage) in
  exists s' r' e', processOrder env a id req s = (Throw e', s') /\ s'.(ws_db) !! id = Some r' /\
    (a + 1 < MAX_RETRIES ->
       r'.(status) = BUILDING /\ r'.(failure_reason) = r.(failure_reason) /\
       (env.(env_publish) StepRetry = None ->
          e' = err /\ last s'.(ws_pub) = Some (mkBus id PENDING (Some err)))) /\
    (MAX_RETRIES <= a + 1 ->
       (env.(env_db) StepFailed = None ->
          r'.(status) = FAILED /\ r'.(failure_reason) = Some err) /\
       (env.(env_db) StepFailed <> None -> r'.(status) = BUILDING) /\
       (env.(env_db) StepFailed = None -> env.(env_publish) StepFailed = None -> e' = err)).
Proof.
  intros Hr Hok Hq Hs Hc err. subst err.
  destruct (Hok StepRouting) as [Hd1 Hp1]; [auto|].
  destruct (Hok StepRouted) as [Hd2 Hp2]; [auto|].
  destruct (Hok StepBuilding) as [Hd3 Hp3]; [auto|].
  destruct r as [st0 ti to ai sl ao du tx fr rq mq lg].
  destruct s as [db0 pub0 tr0]. cbn [ws_db] in *.
  unfold expectedPriceOf in *.
  unfold_attempt. rewrite Hq, Hs. wrun; try congruence.
  all: eexists; eexists; eexists; split; [reflexivity|].
  all: split; [cbn [ws_db]; apply lookup_insert_eq|].
  all: match goal with
       | H : (MAX_RETRIES <=? _) = true |- _ => apply Nat.leb_le in H
       | H : (MAX_RETRIES <=? _) = false |- _ => apply Nat.leb_gt in H
       end.
  all: split; intros Hle; try (unfold MAX_RETRIES in *; lia).
  all: cbn; rewrite ?last_snoc.
  all: repeat split; intros; first [reflexivity | congruence].
Qed.

Lemma hasConfirmed_app (t l : list OrderRow) :
  hasConfirmed (t ++ l) = hasConfirmed t || hasConfirmed l.
Proof. unfold hasConfirmed. apply existsb_app. Qed.

Lemma untilConfirmed_app (t l : list OrderRow) :
  untilConfirmed (t ++ l) = if hasConfirmed t then untilConfirmed t else t ++ untilConfirmed l.
Proof.
  induction t as [|x t IH]; [reflexivity|].
  unfold hasConfirmed in *. cbn [app untilConfirmed existsb].
  destruct (status x) eqn:E; cbn; try reflexivity;
    rewrite IH; destruct (existsb _ t); reflexivity.
Qed.

(** The statement of one attempt, carried along the job: the trace stays
    consistent, and rows before the first confirmed one have no hash. *)
Lemma tx_invariant_step (t l : list OrderRow) (r r' : OrderRow) :
  Forall (fun x => x.(tx_hash) = None) (untilConfirmed t) ->
  (hasConfirmed t = false -> r.(tx_hash) = None) ->
  (r.(tx_hash) = None ->
     Forall (fun x => x.(tx_hash) = None) (untilConfirmed l) /\
     (hasConfirmed l = false -> r'.(tx_hash) = None)) ->
  Forall (fun x => x.(tx_hash) = None) (untilConfirmed (t ++ l)) /\
  (hasConfirmed (t ++ l) = false -> r'.(tx_hash) = None).
Proof.
  intros Ht Hr Hl. rewrite untilConfirmed_app, hasConfirmed_app.
  destruct (hasConfirmed t) eqn:E.
  - split; [exact Ht|]. intros Hx; discriminate Hx.
  - destruct (Hl (Hr eq_refl)) as [Hl1 Hl2].
    assert (Hu : untilConfirmed t = t).
    { clear -E. induction t as [|x t IH]; [reflexivity|].
      unfold hasConfirmed in E. cbn in E. apply orb_false_iff in E as [E1 E2].
      cbn. apply bool_decide_eq_false_1 in E1.
      destruct (status x); try (exfalso; apply E1; reflexivity);
        f_equal; apply IH; exact E2. }
    rewrite Hu in Ht. split; [apply Forall_app; split; assumption|]. exact Hl2.
Qed.

Lemma runAttempts_consistent fuel envs id req a s r :
  s.(ws_db) !! id = Some r -> rowLive r ->
  Forall (fun x => rowConsistent x = true) s.(ws_trace) ->
  Forall (fun x => x.(tx_hash) = None) (untilConfirmed s.(ws_trace)) ->
  (hasConfirmed s.(ws_trace) = false -> r.(tx_hash) = None) ->
  let '(run, s') := runAttempts fuel envs id req a s in
  Forall (fun x => rowConsistent x = true) s'.(ws_trace) /\
  Forall (fun x => x.(tx_hash) = None) (untilConfirmed s'.(ws_trace)) /\
  exists r', s'.(ws_db) !! id = Some r' /\ rowConsistent r' = true.
Proof.
  revert a s r. induction fuel as [|fuel IH]; intros a s r Hr Hl Hall Htx Hrtx.
  - cbn. split; [exact Hall|]. split; [exact Htx|]. exists r. split; [exact Hr|]. apply Hl.
  - cbn [runAttempts].
    pose proof (processOrder_consistent (envs a) a id req s r Hr Hl) as Hpo.
    destruct (processOrder (envs a) a id req s) as [res s1].
    destruct Hpo as (l & r' & Ht & Hd & Hfl & Hc & Hlive & Hfail & Hnew).
    assert (Hall1 : Forall (fun x => rowConsistent x = true) s1.(ws_trace)).
    { rewrite Ht. apply Forall_app. split; assumption. }
    destruct (tx_invariant_step _ _ _ _ Htx Hrtx Hnew) as [Htx1 Hrtx1].
    rewrite <- Ht in Htx1, Hrtx1.
    destruct res as [[]|e].
    + split; [exact Hall1|]. split; [exact Htx1|]. exists r'. auto.
    + destruct (S a <? attempts) eqn:E.
      * apply Nat.ltb_lt in E. unfold attempts in E.
        assert (Hl' : rowLive r').
        { apply Hlive. intros Hx. specialize (Hfail Hx). lia. }
        specialize (IH (S a) s1 r' Hd Hl' Hall1 Htx1 Hrtx1).
        destruct (runAttempts fuel envs id req (S a) s1) as [run s2]. exact IH.
      * split; [exact Hall1|]. split; [exact Htx1|]. exists r'. auto.
Qed.

(** C2 (as the code does it).  [updateOrderStatus] is an unconditional
    [UPDATE ... WHERE id]: with no row it changes nothing, and on an
    existing row it writes the requested status whatever the current one
    (keeping [tx_hash] and [failure_reason]).  Each attempt of the worker
    writes a prefix of ROUTING, ROUTING, BUILDING, SUBMITTED, CONFIRMED,
    followed by FAILED only on the final attempt. *)
Theorem status_update_unconditional :
  (forall id st lg (db : DB), db !! id = None -> updateOrderStatus id st lg db = (None, db)) /\
  (forall id st lg (db : DB) r, db !! id = Some r ->
     exists r', updateOrderStatus id st lg db = (Some r', <[id := r']> db) /\
       r'.(status) = st /\ r'.(tx_hash) = r.(tx_hash) /\
       r'.(failure_reason) = r.(failure_reason)) /\
  (forall env a id req s r, s.(ws_db) !! id = Some r ->
     let '(res, s') := processOrder env a id req s in
     exists l, s'.(ws_trace) = s.(ws_trace) ++ l /\
               attemptShape (MAX_RETRIES <=? a + 1) (map status l) = true).
Proof.
  split; [|split].
  - intros id st lg db H. unfold updateOrderStatus, updateWhereId. rewrite H. reflexivity.
  - intros id st lg db r H. unfold updateOrderStatus, updateWhereId. rewrite H.
    eexists. split; [reflexivity|]. split; [reflexivity|]. split; reflexivity.
  - intros env a id req s r Hr.
    pose proof (processOrder_shape env a id req s r Hr) as Hs.
    destruct (processOrder env a id req s) as [res s']. apply Hs.
Qed.

(** A confirmed row moved back to ROUTING. *)
Lemma status_update_unconditional_witness :
  exists r', updateOrderStatus 0 ROUTING id
               (<[0 := mkRow CONFIRMED "SOL" "USDC" 1 (1#1000) (Some (201#2)) (Some METEORA)
                        (Some "5xSig") None None None []]> ∅) =
             (Some r', <[0 := r']> (<[0 := mkRow CONFIRMED "SOL" "USDC" 1 (1#1000) (Some (201#2))
                        (Some METEORA) (Some "5xSig") None None None []]> ∅)) /\
    r'.(status) = ROUTING /\ r'.(tx_hash) = Some "5xSig" /\ r'.(failure_reason) = None.
Proof.
  apply (proj1 (proj2 status_update_unconditional) 0 ROUTING id _
           (mkRow CONFIRMED "SOL" "USDC" 1 (1#1000) (Some (201#2)) (Some METEORA)
              (Some "5xSig") None None None [])).
  reflexivity.
Defined.

(** C2 as stated fails: a job whose swap throws is retried, and each retry
    writes ROUTING again over BUILDING; the persisted sequence
    pending, routing, routing, building, routing, ... is no path of the
    lifecycle DAG. *)
Lemma retry_regresses_status :
  let '(run, s') := runJob (fun _ => swapDownEnv) 0 requestSolUsdc
                      (wsWithOrder 0 requestSolUsdc) in
  map status s'.(ws_trace) =
    [ROUTING; ROUTING; BUILDING; ROUTING; ROUTING; BUILDING; ROUTING; ROUTING; BUILDING; FAILED] /\
  specMonotonePath (PENDING :: map status s'.(ws_trace)) = false.
Proof. vm_compute. split; reflexivity. Qed.

(** C3 (as the code does it).  A slippage violation is thrown like any
    other error.  On an attempt that is not the last, the row stays in
    BUILDING with its failure reason unchanged, a PENDING event with the
    error is published unless that publish throws, and the queue schedules
    the next attempt after the backoff.  Only on the final attempt is the
    row failed with the slippage error as reason (unless that UPDATE
    throws, and then it stays in BUILDING), and no retry follows.  The
    routing and building steps of the attempt are assumed to go through. *)
Theorem slippage_failure_retried env a id req s r q1 q2 sw :
  s.(ws_db) !! id = Some r ->
  (forall step, step = StepRouting \/ step = StepRouted \/ step = StepBuilding ->
     env.(env_db) step = None /\ env.(env_publish) step = None) ->
  env.(env_quotes) = Ok (q1, q2) -> env.(env_swap) = Ok sw ->
  (checkSlippage (expectedPriceOf q1 q2) sw.(sw_executedPrice) req.(rq_slippage)).1 = false ->
  let err := MsgSlippage
               (checkSlippage (expectedPriceOf q1 q2) sw.(sw_executedPrice) req.(rq_slippage)).2
               req.(rq_slippage) in
  exists s' r' e', processOrder env a id req s = (Throw e', s') /\ s'.(ws_db) !! id = Some r' /\
    (a + 1 < MAX_RETRIES ->
       r'.(status) = BUILDING /\ r'.(failure_reason) = r.(failure_reason) /\
       (env.(env_publish) StepRetry = None ->
          e' = err /\ last s'.(ws_pub) = Some (mkBus id PENDING (Some err))) /\
       forall fuel envs, envs a = env ->
         runAttempts (S fuel) envs id req a s =
           (let '(run, s'') := runAttempts fuel envs id req (S a) s' in
            (mkRun run.(jr_state) run.(jr_attempts)
               (exponentialBackoff backoffDelay (S a) :: run.(jr_delays)), s''))) /\
    (MAX_RETRIES <= a + 1 ->
       (env.(env_db) StepFailed = None ->
          r'.(status) = FAILED /\ r'.(failure_reason) = Some err) /\
       (env.(env_db) StepFailed <> None -> r'.(status) = BUILDING) /\
       (env.(env_db) StepFailed = None -> env.(env_publish) StepFailed = None -> e' = err) /\
       forall fuel envs, envs a = env ->
         runAttempts (S fuel) envs id req a s = (mkRun (FailedTerminal e') (S a) [], s')).
Proof.
  intros Hr Hok Hq Hs Hc err.
  destruct (slippage_attempt env a id req s r q1 q2 sw Hr Hok Hq Hs Hc)
    as (s' & r' & e' & Hpo & Hd & Hnon & Hfin).
  exists s', r', e'. split; [exact Hpo|]. split; [exact Hd|]. split.
  - intros Hlt. destruct (Hnon Hlt) as (H1 & H2 & H3).
    split; [exact H1|]. split; [exact H2|]. split; [exact H3|].
    intros fuel envs He. cbn [runAttempts]. rewrite He, Hpo.
    replace (S a <? attempts) with true
      by (symmetry; apply Nat.ltb_lt; unfold attempts; lia).
    reflexivity.
  - intros Hle. destruct (Hfin Hle) as (H1 & H2 & H3).
    split; [exact H1|]. split; [exact H2|]. split; [exact H3|].
    intros fuel envs He. cbn [runAttempts]. rewrite He, Hpo.
    replace (S a <? attempts) with false
      by (symmetry; apply Nat.ltb_ge; unfold attempts; lia).
    reflexivity.
Qed.

Lemma slippage_failure_retried_witness :
  let err := MsgSlippage
               (checkSlippage (expectedPriceOf quoteRaydium quoteMeteora) 95 (1#1000)).2 (1#1000) in
  exists s' r' e', processOrder slippageEnv 0 0 requestSolUsdc (wsWithOrder 0 requestSolUsdc) = (Throw e', s') /\ s'.(ws_db) !! 0 = Some r' /\
    (0 + 1 < MAX_RETRIES ->
       r'.(status) = BUILDING /\ r'.(failure_reason) = (newRow requestSolUsdc).(failure_reason) /\
       (slippageEnv.(env_publish) StepRetry = None ->
          e' = err /\ last s'.(ws_pub) = Some (mkBus 0 PENDING (Some err))) /\
       forall fuel envs, envs 0 = slippageEnv ->
         runAttempts (S fuel) envs 0 requestSolUsdc 0 (wsWithOrder 0 requestSolUsdc) =
           (let '(run, s'') := runAttempts fuel envs 0 requestSolUsdc 1 s' in
            (mkRun run.(jr_state) run.(jr_attempts)
               (exponentialBackoff backoffDelay 1 :: run.(jr_delays)), s''))) /\
    (MAX_RETRIES <= 0 + 1 ->
       (slippageEnv.(env_db) StepFailed = None ->
          r'.(status) = FAILED /\ r'.(failure_reason) = Some err) /\
       (slippageEnv.(env_db) StepFailed <> None -> r'.(status) = BUILDING) /\
       (slippageEnv.(env_db) StepFailed = None -> slippageEnv.(env_publish) StepFailed = None -> e' = err) /\
       forall fuel envs, envs 0 = slippageEnv ->
         runAttempts (S fuel) envs 0 requestSolUsdc 0 (wsWithOrder 0 requestSolUsdc) = (mkRun (FailedTerminal e') 1 [], s')).
Proof.
  apply (slippage_failure_retried slippageEnv 0 0 requestSolUsdc (wsWithOrder 0 requestSolUsdc)
           (newRow requestSolUsdc) quoteRaydium quoteMeteora (mkSwap "5xSig" 95 METEORA)).
  - reflexivity.
  - intros step _. split; reflexivity.
  - reflexivity.
  - reflexivity.
  - vm_compute. reflexivity.
Defined.

(** C3 as stated fails: the slippage violation on the first attempt leaves
    the row in BUILDING, not failed, and the job is retried twice, after
    2 s and 4 s. *)
Lemma slippage_violation_is_retried :
  (let '(res, s') := processOrder slippageEnv 0 0 requestSolUsdc (wsWithOrder 0 requestSolUsdc) in
   fmap status (s'.(ws_db) !! 0) = Some BUILDING /\
   fmap failure_reason (s'.(ws_db) !! 0) = Some None) /\
  (let '(run, s') := runJob (fun _ => slippageEnv) 0 requestSolUsdc
                       (wsWithOrder 0 requestSolUsdc) in
   run.(jr_attempts) = 3 /\ run.(jr_delays) = [2000; 4000]%Z).
Proof. vm_compute. repeat split; reflexivity. Qed.

(** C4 (as the code does it).  When the venue calls of every attempt fail,
    every attempt throws and the job runs exactly [MAX_RETRIES] = 3
    attempts, with two backoff delays, 2 s and 4 s (BullMQ waits
    [2^(attemptsMade-1) * 2000] ms and schedules no wait after the last
    attempt), and ends failed-terminal with the last attempt's error.  The
    row is failed unless the final [updateOrderFailed] throws; its failure
    reason is that error when the FAILED publish also succeeds; and the
    error is the venue's when no UPDATE or publish of the final attempt
    throws. *)
Theorem venue_failure_bounded_retries envs id req s r (m : nat -> ErrMsg) :
  s.(ws_db) !! id = Some r ->
  (forall n, venueFails (envs n) (m n)) ->
  exists e s' r', runJob envs id req s = (mkRun (FailedTerminal e) 3 [2000; 4000]%Z, s') /\
    s'.(ws_db) !! id = Some r' /\
    ((envs 2).(env_db) StepFailed = None ->
       r'.(status) = FAILED /\
       ((envs 2).(env_publish) StepFailed = None -> r'.(failure_reason) = Some e)) /\
    (infraOk (envs 2) -> e = m 2).
Proof.
  intros Hr Hv.
  destruct (venue_attempt (envs 0) 0 id req s r (m 0) Hr (Hv 0))
    as (e1 & s1 & r1 & H1 & Hd1 & _).
  destruct (venue_attempt (envs 1) 1 id req s1 r1 (m 1) Hd1 (Hv 1))
    as (e2 & s2 & r2 & H2 & Hd2 & _).
  destruct (venue_attempt (envs 2) 2 id req s2 r2 (m 2) Hd2 (Hv 2))
    as (e3 & s3 & r3 & H3 & Hd3 & Hf3 & Hm3).
  exists e3, s3, r3. split; [|split; [exact Hd3|split; [|exact Hm3]]].
  - unfold runJob, attempts, MAX_RETRIES.
    cbn [runAttempts]. rewrite H1. cbn [Nat.ltb Nat.leb]. rewrite H2. cbn [Nat.ltb Nat.leb].
    rewrite H3. cbn [Nat.ltb Nat.leb]. reflexivity.
  - apply Hf3. unfold MAX_RETRIES. lia.
Qed.

Lemma venue_failure_bounded_retries_witness :
  exists e s' r', runJob (fun _ => venueDownEnv) 0 requestSolUsdc (wsWithOrder 0 requestSolUsdc) =
      (mkRun (FailedTerminal e) 3 [2000; 4000]%Z, s') /\
    s'.(ws_db) !! 0 = Some r' /\
    (venueDownEnv.(env_db) StepFailed = None ->
       r'.(status) = FAILED /\
       (venueDownEnv.(env_publish) StepFailed = None -> r'.(failure_reason) = Some e)) /\
    (infraOk venueDownEnv -> e = MsgText "venue unavailable").
Proof.
  apply (venue_failure_bounded_retries (fun _ => venueDownEnv) 0 requestSolUsdc
           (wsWithOrder 0 requestSolUsdc) (newRow requestSolUsdc)
           (fun _ => MsgText "venue unavailable")).
  - reflexivity.
  - intros n. left. reflexivity.
Defined.

(** C4 as stated fails: the delays of a venue that always fails are 2 s and
    4 s; there is no third delay of 8 s. *)
Lemma always_failing_venue_delays :
  (runJob (fun _ => venueDownEnv) 0 requestSolUsdc (wsWithOrder 0 requestSolUsdc)).1.(jr_delays)
    <> [2000; 4000; 8000]%Z.
Proof. vm_compute. discriminate. Qed.

Lemma newRow_fresh (req : IOrderRequest) :
  (newRow req).(status) = PENDING /\ (newRow req).(tx_hash) = None /\
  (newRow req).(failure_reason) = None.
Proof.
  unfold newRow, insertedRow. repeat case_match; split; auto.
Qed.

(** C6 (as the code does it).  [tx_hash] is written only by the
    confirmation: [createOrder] inserts it null, and [updateOrderStatus],
    [updateOrderRouting] and [updateOrderFailed] keep it (the first two
    keep [failure_reason] as well).  For every job started on a freshly
    created row, every row written before the first confirmed one has a
    null [tx_hash], and every persisted row and the final row have
    [failure_reason] set exactly when they are failed, and a [tx_hash]
    when they are confirmed. *)
Theorem persisted_rows_consistent :
  (forall id req (db db' : DB) r, createOrder id req db = Some (r, db') ->
     r.(tx_hash) = None /\ r.(failure_reason) = None) /\
  (forall id st lg (db db' : DB) r r', db !! id = Some r ->
     updateOrderStatus id st lg db = (Some r', db') ->
     r'.(tx_hash) = r.(tx_hash) /\ r'.(failure_reason) = r.(failure_reason)) /\
  (forall id rq mq d (db db' : DB) r r', db !! id = Some r ->
     updateOrderRouting id rq mq d db = (Some r', db') ->
     r'.(tx_hash) = r.(tx_hash) /\ r'.(failure_reason) = r.(failure_reason)) /\
  (forall id e n k (db db' : DB) r r', db !! id = Some r ->
     updateOrderFailed id e n k db = (Some r', db') -> r'.(tx_hash) = r.(tx_hash)) /\
  (forall envs id req s, s.(ws_db) !! id = Some (newRow req) -> s.(ws_trace) = [] ->
     let '(run, s') := runJob envs id req s in
     Forall (fun x => x.(tx_hash) = None) (untilConfirmed s'.(ws_trace)) /\
     Forall (fun x => rowConsistent x = true) s'.(ws_trace) /\
     exists r', s'.(ws_db) !! id = Some r' /\ rowConsistent r' = true).
Proof.
  split; [|split; [|split; [|split]]].
  - intros id req db db' r H. unfold createOrder in H.
    destruct (db !! id); [discriminate|].
    destruct (insertedRow req) as [r0|] eqn:E; [|discriminate].
    inversion H; subst. unfold insertedRow in E. repeat case_match; try discriminate.
    inversion E; subst. split; reflexivity.
  - intros id st lg db db' r r' H Hu. unfold updateOrderStatus, updateWhereId in Hu.
    rewrite H in Hu. inversion Hu. split; reflexivity.
  - intros id rq mq d db db' r r' H Hu. unfold updateOrderRouting, updateWhereId in Hu.
    rewrite H in Hu. inversion Hu. split; reflexivity.
  - intros id e n k db db' r r' H Hu. unfold updateOrderFailed, updateWhereId in Hu.
    rewrite H in Hu. inversion Hu. reflexivity.
  - intros envs id req s Hr Ht. unfold runJob.
    destruct (newRow_fresh req) as (Hs & Htx & Hfr).
    assert (Hlive : rowLive (newRow req)).
    { unfold rowLive, rowConsistent. rewrite Hfr, Hs.
      split; [reflexivity|]. split; [discriminate|reflexivity]. }
    pose proof (runAttempts_consistent attempts envs id req 0 s _ Hr Hlive) as Hrun.
    destruct (runAttempts attempts envs id req 0 s) as [run s'].
    rewrite Ht in Hrun. destruct Hrun as (H1 & H2 & H3).
    + constructor.
    + constructor.
    + intros _. exact Htx.
    + split; [exact H2|]. split; [exact H1|exact H3].
Qed.

Lemma persisted_rows_consistent_witness :
  let '(run, s') := runJob (fun _ => okEnv) 0 requestSolUsdc (wsWithOrder 0 requestSolUsdc) in
  Forall (fun x => x.(tx_hash) = None) (untilConfirmed s'.(ws_trace)) /\
  Forall (fun x => rowConsistent x = true) s'.(ws_trace) /\
  exists r', s'.(ws_db) !! 0 = Some r' /\ rowConsistent r' = true.
Proof.
  apply (proj2 (proj2 (proj2 (proj2 persisted_rows_consistent))) (fun _ => okEnv) 0
           requestSolUsdc (wsWithOrder 0 requestSolUsdc)); reflexivity.
Defined.

(** C6 as stated fails: in a job that succeeds on its first attempt the
    row written at SUBMITTED has no [tx_hash] (the hash goes only into the
    log entry). *)
Lemma submitted_row_without_txhash :
  let '(run, s') := runJob (fun _ => okEnv) 0 requestSolUsdc (wsWithOrder 0 requestSolUsdc) in
  run.(jr_state) = Completed /\
  existsb (fun x => bool_decide (x.(status) = SUBMITTED) && bool_decide (x.(tx_hash) = None))
    s'.(ws_trace) = true.
Proof. vm_compute. split; reflexivity. Qed.

(** ** Subscriptions *)

Lemma runSchedule_app l1 l2 s :
  runSchedule (l1 ++ l2) s = runSchedule l2 (runSchedule l1 s).
Proof. revert s. induction l1 as [|a l1 IH]; intros s; simpl; auto. Qed.

Lemma observed_app o1 o2 : observed (o1 ++ o2) = observed o1 ++ observed o2.
Proof.
  induction o1 as [|[b l|st] o1 IH]; simpl; [reflexivity| |]; rewrite IH;
    [rewrite app_assoc|]; reflexivity.
Qed.

Lemma subseqb_refl l : subseqb l l = true.
Proof. induction l as [|x l IH]; simpl; [reflexivity|]. rewrite decide_True; auto. Qed.

Lemma subseqb_skip_tail l2 :
  (forall l1 x, subseqb l1 l2 = true -> subseqb l1 (x :: l2) = true) /\
  (forall y r1, subseqb (y :: r1) l2 = true -> subseqb r1 l2 = true).
Proof.
  induction l2 as [|z l2 [IHs IHt]].
  - split.
    + intros [|y r1] x H; [reflexivity|discriminate].
    + intros y r1 H; discriminate.
  - assert (Hskip : forall l1 x, subseqb l1 (z :: l2) = true -> subseqb l1 (x :: z :: l2) = true).
    { intros [|y r1] x H; [reflexivity|].
      cbn [subseqb] in H |- *.
      destruct (decide (y = x)) as [->|Hne]; [|exact H].
      destruct (decide (x = z)) as [->|Hne']; [apply IHs, H|].
      apply IHs, (IHt x r1), H. }
    split; [exact Hskip|].
    intros y r1 H. cbn [subseqb] in H.
    destruct (decide (y = z)) as [->|Hne]; [apply IHs, H|].
    apply IHs, (IHt y r1), H.
Qed.

Lemma subseqb_skip l1 l2 x : subseqb l1 l2 = true -> subseqb l1 (x :: l2) = true.
Proof. apply (proj1 (subseqb_skip_tail l2)). Qed.

Lemma subseqb_app_l p l1 l2 : subseqb (p ++ l1) (p ++ l2) = subseqb l1 l2.
Proof.
  induction p as [|x p IH]; simpl; [reflexivity|]. rewrite decide_True; auto.
Qed.

(** When every persisted transition is published, the persisted statuses
    are a subsequence of the published ones. *)
Lemma persisted_in_published todo :
  Forall (fun o => forall st ok, o = OpUpdate st ok -> ok = true) todo ->
  subseqb (concat (map opPersisted todo)) (concat (map opPublished todo)) = true.
Proof.
  induction todo as [|o todo IH]; intros Hall; [reflexivity|].
  inversion Hall as [|? ? Ho Hrest]; subst.
  destruct o as [st ok|st]; cbn [map concat opPersisted opPublished app].
  - rewrite (Ho st ok eq_refl). cbn [app]. cbn [subseqb].
    rewrite decide_True by reflexivity. apply IH, Hrest.
  - apply subseqb_skip, IH, Hrest.
Qed.

Lemma outShape_publishTo st s todo : outShape s -> outShape (publishTo st s todo).
Proof.
  destruct s as [row todo0 un c out bus].
  intros (pre & Hout & Hstart & Hpre & Hlive). simpl in *.
  unfold publishTo; simpl.
  exists pre. simpl. unfold liveUpdates in *. rewrite List.filter_app.
  destruct c; simpl; rewrite ?app_nil_r;
    [| | rewrite map_app, Hout, app_assoc];
    repeat split; auto; try discriminate;
    try (intros Hx; discriminate Hx);
    try (intros Hx; exfalso; apply Hx; reflexivity);
    try (intros _; rewrite Hlive by discriminate; reflexivity).
Qed.

Lemma outShape_step a s : outShape s -> outShape (actorStep a s).
Proof.
  intros Hs. destruct a; simpl.
  - unfold workerStep. destruct (ss_unpublished s) as [st|] eqn:Hun.
    + apply outShape_publishTo, Hs.
    + destruct (ss_todo s) as [|[st ok|st] rest] eqn:Ht; [exact Hs| |].
      * destruct s as [row todo un c out bus].
        destruct Hs as (pre & Hout & Hstart & Hpre & Hlive).
        exists pre. simpl in *. auto.
      * apply outShape_publishTo, Hs.
  - destruct s as [row todo un c out bus].
    destruct Hs as (pre & Hout & Hstart & Hpre & Hlive). simpl in *.
    unfold connStep; simpl. destruct c; simpl.
    + exists [Backfill (sr_status row) (sr_logs row)].
      assert (Hf : List.filter snd bus = []) by (apply Hlive; discriminate).
      rewrite Hout, (Hstart eq_refl). unfold liveUpdates. simpl. rewrite !Hf. simpl.
      split; [reflexivity|]. split; [discriminate|]. split; [right; eauto|].
      intros _; reflexivity.
    + exists pre. repeat split; auto; try (intros Hx; discriminate Hx);
        try (intros Hx; exfalso; apply Hx; reflexivity).
    + exists pre. repeat split; auto.
Qed.

(** Every step keeps the operations still to do a suffix of the earlier ones. *)
Lemma todo_step a s (P : WorkerOp -> Prop) :
  Forall P s.(ss_todo) -> Forall P (actorStep a s).(ss_todo).
Proof.
  intros H. destruct a; simpl.
  - unfold workerStep, publishTo. destruct (ss_unpublished s); [exact H|].
    destruct s as [row todo un c out bus]; simpl in *.
    destruct todo as [|[st ok|st] rest]; simpl; [exact H| |];
      inversion H; assumption.
  - unfold connStep. destruct (ss_conn s); exact H.
Qed.

Lemma todo_run sched s (P : WorkerOp -> Prop) :
  Forall P s.(ss_todo) -> Forall P (runSchedule sched s).(ss_todo).
Proof.
  revert s. induction sched as [|a sched IH]; intros s H; simpl; [exact H|].
  apply IH, todo_step, H.
Qed.

Lemma worker_only_start n s :
  s.(ss_conn) = CStart -> s.(ss_out) = [] ->
  (runSchedule (repeat AWorker n) s).(ss_conn) = CStart /\
  (runSchedule (repeat AWorker n) s).(ss_out) = [].
Proof.
  revert s. induction n as [|n IH]; intros s Hc Ho; simpl; [auto|].
  apply IH; unfold workerStep, publishTo; destruct (ss_unpublished s); rewrite ?Hc; simpl; auto;
    destruct (ss_todo s) as [|[st ok|st] rest]; simpl; rewrite ?Hc; auto.
Qed.

Lemma subscribed_step a s :
  s.(ss_conn) = CSubscribed ->
  (actorStep a s).(ss_conn) = CSubscribed /\
  finalHistory (actorStep a s) = finalHistory s /\
  eventualObserved (actorStep a s) = eventualObserved s.
Proof.
  destruct s as [row todo un c out bus]. simpl. intros ->.
  unfold finalHistory, eventualObserved, pendingStatuses.
  destruct a; simpl; [|auto].
  unfold workerStep, publishTo; simpl. destruct un as [st|]; simpl.
  - rewrite observed_app. simpl. rewrite <- app_assoc. auto.
  - destruct todo as [|[st ok|st] rest]; simpl; [auto| |].
    + rewrite <- app_assoc. destruct ok; auto.
    + rewrite observed_app. simpl. rewrite <- app_assoc. auto.
Qed.

Lemma subscribed_run w s :
  s.(ss_conn) = CSubscribed ->
  finalHistory (runSchedule w s) = finalHistory s /\
  eventualObserved (runSchedule w s) = eventualObserved s.
Proof.
  revert s. induction w as [|a w IH]; intros s Hc; simpl; [auto|].
  destruct (subscribed_step a s Hc) as (Hc' & Hf & He).
  destruct (IH _ Hc') as [Hf' He']. rewrite Hf', He', Hf, He. auto.
Qed.

(** C5 (as the code does it).  Whatever the interleaving of the worker and
    the connection, the socket receives at most one backfill, first, and
    then exactly the publications made while the listener was registered:
    a publication made before that is neither buffered nor replayed, and a
    transition whose publish throws is never sent.  When the connection
    subscribes right after reading the row for the backfill (no worker step
    in between), every publish of a persisted transition succeeds and the
    worker has finished, the backfill logs followed by the live updates
    contain the whole persisted history in order. *)
Theorem subscription_without_buffering :
  (forall sched row todo,
     let s' := runSchedule sched (subInit row todo) in
     exists pre, s'.(ss_out) = pre ++ liveUpdates s'.(ss_bus) /\
       (pre = [] \/ exists b l, pre = [Backfill b l])) /\
  (forall n1 w2 row todo,
     Forall (fun o => forall st ok, o = OpUpdate st ok -> ok = true) todo ->
     let s' := runSchedule (repeat AWorker n1 ++ [AConn; AConn] ++ w2) (subInit row todo) in
     s'.(ss_todo) = [] -> s'.(ss_unpublished) = None ->
     subseqb s'.(ss_row).(sr_logs) (observed s'.(ss_out)) = true).
Proof.
  split.
  - intros sched row todo s'.
    assert (Hinv : forall sch s, outShape s -> outShape (runSchedule sch s)).
    { induction sch as [|a sch IH]; intros s Hs; simpl; [exact Hs|].
      apply IH, outShape_step, Hs. }
    destruct (Hinv sched (subInit row todo)) as (pre & Hout & _ & Hpre & _).
    { exists []. simpl. repeat split; auto. }
    exists pre. split; assumption.
  - intros n1 w2 row todo Hok s' Htodo Hun.
    unfold s'. rewrite !runSchedule_app.
    destruct (worker_only_start n1 (subInit row todo) eq_refl eq_refl) as [Hc1 Ho1].
    pose proof (todo_run (repeat AWorker n1) (subInit row todo) _ Hok) as Hok1.
    set (s1 := runSchedule (repeat AWorker n1) (subInit row todo)) in *.
    set (s3 := runSchedule [AConn; AConn] s1).
    assert (Hc3 : s3.(ss_conn) = CSubscribed).
    { unfold s3. simpl. unfold connStep. rewrite Hc1. reflexivity. }
    destruct (subscribed_run w2 s3 Hc3) as [Hf He].
    fold s3 in s'. unfold s' in Htodo, Hun.
    rewrite !runSchedule_app in Htodo, Hun. fold s1 s3 in Htodo, Hun.
    assert (Hfin : subseqb (finalHistory (runSchedule w2 s3))
                           (eventualObserved (runSchedule w2 s3)) = true).
    { rewrite Hf, He. unfold s3, finalHistory, eventualObserved, pendingStatuses.
      simpl. unfold connStep. rewrite Hc1. simpl. rewrite ?Hc1. simpl.
      rewrite Ho1. simpl. rewrite app_nil_r, subseqb_app_l.
      pose proof (persisted_in_published _ Hok1) as Hsub.
      destruct (ss_unpublished s1) as [st|]; simpl;
        [apply subseqb_skip, Hsub | exact Hsub]. }
    unfold finalHistory, eventualObserved, pendingStatuses in Hfin.
    rewrite Htodo, Hun in Hfin. simpl in Hfin. rewrite !app_nil_r in Hfin. exact Hfin.
Qed.

Lemma subscription_without_buffering_witness :
  let todo := [OpUpdate ROUTING true; OpNotify PENDING; OpUpdate BUILDING true] in
  let s' := runSchedule (repeat AWorker 1 ++ [AConn; AConn] ++
                           [AWorker; AWorker; AWorker; AWorker; AWorker])
              (subInit (mkSubRow PENDING [PENDING]) todo) in
  Forall (fun o => forall st ok, o = OpUpdate st ok -> ok = true) todo /\
  s'.(ss_todo) = [] /\ s'.(ss_unpublished) = None /\
  subseqb s'.(ss_row).(sr_logs) (observed s'.(ss_out)) = true.
Proof.
  assert (Hok : Forall (fun o => forall st ok, o = OpUpdate st ok -> ok = true)
                  [OpUpdate ROUTING true; OpNotify PENDING; OpUpdate BUILDING true]).
  { repeat constructor; intros st ok Hx; inversion Hx; reflexivity. }
  split; [exact Hok|]. split; [reflexivity|]. split; [reflexivity|].
  apply (proj2 subscription_without_buffering 1 [AWorker; AWorker; AWorker; AWorker; AWorker]
           (mkSubRow PENDING [PENDING]) _ Hok); reflexivity.
Defined.

(** C5 as stated fails: the connection sends the backfill, the worker
    persists and publishes ROUTING before the listener is registered, and
    that transition is never delivered; the client sees PENDING, then
    BUILDING. *)
Lemma transition_before_subscribe_is_lost :
  let s' := runSchedule [AConn; AWorker; AWorker; AConn; AWorker; AWorker]
              (subInit (mkSubRow PENDING [PENDING]) [OpUpdate ROUTING true; OpUpdate BUILDING true]) in
  s'.(ss_out) = [Backfill PENDING [PENDING]; StatusUpdate BUILDING] /\
  s'.(ss_row).(sr_logs) = [PENDING; ROUTING; BUILDING] /\
  subseqb s'.(ss_row).(sr_logs) (observed s'.(ss_out)) = false.
Proof. vm_compute. split; [reflexivity|split; reflexivity]. Qed.

(* ================================================================== *)
(** * Further properties of the code *)

Lemma toInt32_range (x : Z) : (- 2 ^ 31 <= toInt32 x < 2 ^ 31)%Z.
Proof.
  unfold toInt32. pose proof (Z.mod_pos_bound x (2 ^ 32)) as Hb.
  destruct (2 ^ 31 <=? x mod 2 ^ 32)%Z eqn:E; [apply Z.leb_le in E | apply Z.leb_gt in E]; lia.
Qed.

Lemma toInt32_shift (x : Z) : exists j, toInt32 x = (x + 2 ^ 32 * j)%Z.
Proof.
  unfold toInt32. rewrite Z.mod_eq by lia.
  destruct (2 ^ 31 <=? x - 2 ^ 32 * (x / 2 ^ 32))%Z.
  - exists (- (x / 2 ^ 32) - 1)%Z. lia.
  - exists (- (x / 2 ^ 32))%Z. lia.
Qed.

Lemma toInt32_mod (x y : Z) : (x mod 2 ^ 32 = y mod 2 ^ 32)%Z -> toInt32 x = toInt32 y.
Proof. unfold toInt32. intros ->. reflexivity. Qed.

Lemma mod_shift (x j : Z) : ((x + 2 ^ 32 * j) mod 2 ^ 32 = x mod 2 ^ 32)%Z.
Proof. rewrite Z.mul_comm. apply Z_mod_plus_full. Qed.

Lemma toInt32_id (x : Z) : (- 2 ^ 31 <= x < 2 ^ 31)%Z -> toInt32 x = x.
Proof.
  intros H. unfold toInt32.
  destruct (Z.leb_spec 0 x).
  - rewrite Z.mod_small by lia. destruct (Z.leb_spec (2 ^ 31) x); lia.
  - assert (E : (x mod 2 ^ 32 = x + 2 ^ 32)%Z).
    { rewrite <- (mod_shift x 1). rewrite Z.mod_small; lia. }
    rewrite E. destruct (Z.leb_spec (2 ^ 31) (x + 2 ^ 32)); lia.
Qed.

Lemma hashStep_eq (h c : Z) : hashStep h c = toInt32 (31 * h + c).
Proof.
  unfold hashStep. rewrite Z.land_diag.
  rewrite (toInt32_id (toInt32 _)) by apply toInt32_range.
  apply toInt32_mod. rewrite Z.shiftl_mul_pow2 by lia.
  destruct (toInt32_shift h) as [j1 ->].
  destruct (toInt32_shift ((h + 2 ^ 32 * j1) * 2 ^ 5)) as [j2 ->].
  replace ((h + 2 ^ 32 * j1) * 2 ^ 5 + 2 ^ 32 * j2 - h + c)%Z
    with (31 * h + c + 2 ^ 32 * (32 * j1 + j2))%Z by ring.
  apply mod_shift.
Qed.

Lemma javaFold_cong (cs : list Z) (x y : Z) :
  (x mod 2 ^ 32 = y mod 2 ^ 32)%Z ->
  (fold_left (fun h c => 31 * h + c)%Z cs x mod 2 ^ 32 =
   fold_left (fun h c => 31 * h + c)%Z cs y mod 2 ^ 32)%Z.
Proof.
  revert x y. induction cs as [|c cs IH]; intros x y Hxy; simpl; [exact Hxy|].
  apply IH. rewrite (Zplus_mod (31 * x)), (Zplus_mod (31 * y)), (Zmult_mod 31 x), (Zmult_mod 31 y), Hxy.
  reflexivity.
Qed.

Lemma hashFold_eq (cs : list Z) (h : Z) :
  (- 2 ^ 31 <= h < 2 ^ 31)%Z ->
  fold_left hashStep cs h = toInt32 (fold_left (fun h c => 31 * h + c)%Z cs h).
Proof.
  revert h. induction cs as [|c cs IH]; intros h Hh; simpl.
  - symmetry. apply toInt32_id. exact Hh.
  - rewrite hashStep_eq, IH by apply toInt32_range.
    apply toInt32_mod, javaFold_cong.
    destruct (toInt32_shift (31 * h + c)) as [j ->]. apply mod_shift.
Qed.

(** X1: [hashString] computes the absolute value of Java's [String.hashCode]
    of the code units (the int32 [31*h + c] recurrence), so the seed it gives
    lies in [0, 2^31]. *)
Theorem hashString_java_abs (str : list Z) :
  hashString str = Z.abs (javaHashCode str) /\ (0 <= hashString str <= 2 ^ 31)%Z.
Proof.
  unfold hashString, javaHashCode. rewrite hashFold_eq by lia.
  split; [reflexivity|].
  pose proof (toInt32_range (fold_left (fun h c => 31 * h + c)%Z str 0%Z)). lia.
Qed.

(** X3: Redis [retryStrategy] gives up after the third retry and otherwise
    waits [200 * times] ms; the 2000 ms cap is never reached. *)
Lemma retryStrategy_delays (times : Z) :
  retryStrategy times = if (3 <? times)%Z then None else Some (200 * times)%Z.
Proof.
  unfold retryStrategy. destruct (Z.ltb_spec 3 times); [reflexivity|]. f_equal. lia.
Qed.

Lemma nextSeed_mod (s : Z) : (0 <= s)%Z -> nextSeed s = ((9301 * s + 49297) mod 233280)%Z.
Proof.
  intros Hs. unfold nextSeed, next. simpl. rewrite Z.rem_mod_nonneg by lia.
  f_equal. ring.
Qed.

Lemma nextSeed_range (s : Z) : (0 <= s)%Z -> (0 <= nextSeed s < 233280)%Z.
Proof. intros Hs. rewrite nextSeed_mod by exact Hs. apply Z.mod_pos_bound. lia. Qed.

Lemma seedAfter_range (k : nat) (s : Z) : (0 <= s)%Z -> (1 <= k)%nat ->
  (0 <= seedAfter k s < 233280)%Z.
Proof.
  intros Hs Hk. destruct k as [|k]; [lia|]. unfold seedAfter. simpl.
  apply nextSeed_range. clear Hk. induction k as [|k IH]; simpl; [exact Hs|].
  pose proof (nextSeed_range _ IH). lia.
Qed.

Lemma seedAfter_affine (k : nat) (s : Z) : (0 <= s < 233280)%Z ->
  seedAfter k s = (((Nat.iter k lcgAffine (1, 0)).1 * s + (Nat.iter k lcgAffine (1, 0)).2)
                   mod 233280)%Z.
Proof.
  intros Hs. induction k as [|k IH].
  - simpl. rewrite Z.mod_small; lia.
  - unfold seedAfter in *. simpl Nat.iter. rewrite IH.
    destruct (Nat.iter k lcgAffine (1, 0))%Z as [A C]. simpl.
    rewrite nextSeed_mod by (apply Z.mod_pos_bound; lia).
    rewrite (Z.mod_eq (A * s + C)), (Z.mod_eq (9301 * A)), (Z.mod_eq (9301 * C + 49297)) by lia.
    set (q1 := ((A * s + C) / 233280)%Z). set (q2 := ((9301 * A) / 233280)%Z).
    set (q3 := ((9301 * C + 49297) / 233280)%Z).
    replace (9301 * (A * s + C - 233280 * q1) + 49297)%Z
      with (9301 * A * s + 9301 * C + 49297 + (- 9301 * q1) * 233280)%Z by ring.
    replace ((9301 * A - 233280 * q2) * s + (9301 * C + 49297 - 233280 * q3))%Z
      with (9301 * A * s + 9301 * C + 49297 + (- q2 * s - q3) * 233280)%Z by ring.
    rewrite !Z_mod_plus_full. reflexivity.
Qed.

Lemma iter_succ_r {A} (f : A -> A) (n : nat) (x : A) :
  Nat.iter (S n) f x = Nat.iter n f (f x).
Proof. induction n as [|n IH]; simpl in *; [reflexivity|]. rewrite <- IH. reflexivity. Qed.

Lemma periodRun_spec (n : nat) (A C : Z) (p : Z * Z) (i : nat) :
  periodRun n A C = Some p ->
  p = Nat.iter n lcgAffine (A, C) /\
  ((i < n)%nat ->
   ((Nat.iter (S i) lcgAffine (A, C)).2
      mod Z.gcd ((Nat.iter (S i) lcgAffine (A, C)).1 - 1) 233280 <> 0)%Z).
Proof.
  revert A C i. induction n as [|n IH]; intros A C i Hc.
  - simpl in Hc. injection Hc as <-. split; [reflexivity | lia].
  - simpl in Hc. destruct (_ =? 0)%Z eqn:E; [discriminate|].
    apply Z.eqb_neq in E. split.
    + rewrite iter_succ_r. apply (IH _ _ 0%nat Hc).
    + intros Hi. destruct i as [|i].
      * exact E.
      * rewrite iter_succ_r. apply IH; [exact Hc | lia].
Qed.

Lemma no_fixed_point (A C s : Z) :
  (C mod Z.gcd (A - 1) 233280 <> 0)%Z -> ((A * s + C) mod 233280 <> s)%Z.
Proof.
  intros Hg Hs. apply Hg. apply Z.mod_divide.
  { intros Hz. apply Z.gcd_eq_0 in Hz. lia. }
  assert (Hm : (233280 | (A - 1) * s + C)%Z).
  { apply Z.mod_divide; [lia|].
    replace ((A - 1) * s + C)%Z with (A * s + C - s)%Z by ring.
    rewrite Zminus_mod, Hs. rewrite Zminus_mod_idemp_r, Z.sub_diag. reflexivity. }
  replace C with (((A - 1) * s + C) - (A - 1) * s)%Z by ring.
  apply Z.divide_sub_r.
  - eapply Z.divide_trans; [apply Z.gcd_divide_r | exact Hm].
  - apply Z.divide_mul_l, Z.gcd_divide_l.
Qed.

Lemma seedAfter_add (a b : nat) (s : Z) : seedAfter (a + b) s = seedAfter a (seedAfter b s).
Proof. unfold seedAfter. apply Nat.iter_add. Qed.

Lemma affine_run : periodRun (LCG_MODULUS - 1) 1 0 = Some (123901%Z, 22643%Z).
Proof. vm_compute. reflexivity. Qed.

Lemma affine_full_cycle : Nat.iter LCG_MODULUS lcgAffine (1, 0)%Z = (1, 0)%Z.
Proof.
  pose proof (proj1 (periodRun_spec _ _ _ _ 0 affine_run)) as H.
  assert (E : LCG_MODULUS = S (LCG_MODULUS - 1)) by (unfold LCG_MODULUS; lia).
  rewrite E, Nat.iter_succ, <- H. reflexivity.
Qed.

(** X2: from a non-negative integer seed, every value [next()] returns is in
    [0, 1), and the seed sequence, from its first call on, is periodic with
    least period exactly 233280. *)
Theorem seeded_random_period (seed : Z) (k : nat) :
  (0 <= seed)%Z ->
  (0 <= (next (seedAfter k seed)).2 < 1)%Q /\
  ((1 <= k)%nat ->
   seedAfter (LCG_MODULUS + k) seed = seedAfter k seed /\
   forall j, (0 < j < LCG_MODULUS)%nat -> seedAfter (j + k) seed <> seedAfter k seed).
Proof.
  intros Hs.
  assert (Hk0 : (0 <= seedAfter k seed)%Z).
  { destruct k as [|k]; [exact Hs|]. pose proof (seedAfter_range (S k) seed Hs). lia. }
  split.
  - pose proof (nextSeed_range _ Hk0) as Hr. unfold nextSeed in Hr.
    destruct (next (seedAfter k seed)) as [s' v] eqn:E. unfold next in E.
    injection E as E1 E2. subst v. simpl in Hr. rewrite <- E1.
    split.
    + apply Qle_shift_div_l; [reflexivity|]. rewrite Qmult_0_l.
      rewrite E1. change 0%Q with (inject_Z 0). rewrite <- Zle_Qle. lia.
    + apply Qlt_shift_div_r; [reflexivity|]. rewrite Qmult_1_l.
      rewrite E1. rewrite <- Zlt_Qlt. lia.
  - intros Hk. pose proof (seedAfter_range k seed Hs Hk) as Hr.
    split.
    + rewrite seedAfter_add.
      rewrite seedAfter_affine by exact Hr. rewrite affine_full_cycle. simpl.
      rewrite Z.mod_small; lia.
    + intros j Hj. rewrite seedAfter_add.
      rewrite seedAfter_affine by exact Hr.
      apply no_fixed_point. destruct j as [|i]; [lia|].
      apply (proj2 (periodRun_spec (LCG_MODULUS - 1) 1 0 _ i affine_run)). lia.
Qed.

Lemma latenciesOf_cons (ty : LatencyType) (c : MetricsCall) (cs : list MetricsCall) :
  latenciesOf ty (c :: cs) =
  match c with
  | CallRecordLatency ty' l => if decide (ty' = ty) then l :: latenciesOf ty cs else latenciesOf ty cs
  | _ => latenciesOf ty cs
  end.
Proof. unfold latenciesOf. destruct c as [| ty' l |]; simpl; try destruct (decide _); reflexivity. Qed.

Lemma incrementsOf_cons (k : CounterKey) (c : MetricsCall) (cs : list MetricsCall) :
  incrementsOf k (c :: cs) =
  ((match c with CallIncrement k' => if bool_decide (k' = k) then 1 else 0 | _ => 0 end)
   + incrementsOf k cs)%nat.
Proof. unfold incrementsOf. destruct c as [k'| |]; simpl; try destruct (bool_decide _); reflexivity. Qed.

Lemma metrics_fold_fields (cs : list MetricsCall) (m : Metrics) :
  let m' := fold_left (fun m c => metricsCall c m) cs m in
  quote_latency_sum m' = (quote_latency_sum m + foldr Z.add 0 (latenciesOf LQuote cs))%Z /\
  quote_latency_count m' = (quote_latency_count m + Z.of_nat (length (latenciesOf LQuote cs))
                            + Z.of_nat (incrementsOf K_quote_latency_count cs))%Z /\
  execution_latency_sum m' = (execution_latency_sum m + foldr Z.add 0 (latenciesOf LExecution cs))%Z /\
  execution_latency_count m' = (execution_latency_count m
                                + Z.of_nat (length (latenciesOf LExecution cs))
                                + Z.of_nat (incrementsOf K_execution_latency_count cs))%Z /\
  orders_total m' = (orders_total m + Z.of_nat (incrementsOf K_orders_total cs))%Z /\
  orders_completed m' = (orders_completed m + Z.of_nat (incrementsOf K_orders_completed cs))%Z /\
  orders_failed m' = (orders_failed m + Z.of_nat (incrementsOf K_orders_failed cs))%Z /\
  orders_rejected m' = (orders_rejected m + Z.of_nat (incrementsOf K_orders_rejected cs))%Z /\
  queue_depth m' = fold_left (fun d c => match c with CallSetQueueDepth d' => d' | _ => d end)
                     cs (queue_depth m).
Proof.
  revert m. induction cs as [|c cs IH]; intros m; cbn [fold_left].
  - unfold incrementsOf, latenciesOf. simpl. lia.
  - destruct (IH (metricsCall c m)) as (H1 & H2 & H3 & H4 & H5 & H6 & H7 & H8 & H9).
    rewrite H1, H2, H3, H4, H5, H6, H7, H8, H9.
    rewrite !latenciesOf_cons, !incrementsOf_cons.
    destruct m as [t co f r qs qc es ec d].
    destruct c as [k | [|] l | d']; [destruct k| | |];
      cbn -[latenciesOf incrementsOf];
      repeat case_bool_decide; repeat case_decide; try congruence;
      cbn [foldr length]; rewrite ?Nat2Z.inj_succ; repeat split; lia.
Qed.

(** X4: when no caller increments [quote_latency_count] or
    [execution_latency_count] directly, each average of [getMetrics] is the
    arithmetic mean of the latencies recorded for that type, and 0 when none
    was recorded. *)
Theorem metrics_average_is_mean (cs : list MetricsCall) :
  noLatencyCountIncrement cs ->
  quote_avg_latency (getMetrics (metricsRun cs)) = meanLatency (latenciesOf LQuote cs) /\
  execution_avg_latency (getMetrics (metricsRun cs)) = meanLatency (latenciesOf LExecution cs).
Proof.
  intros Hno.
  assert (Hz : forall k, k = K_quote_latency_count \/ k = K_execution_latency_count ->
                         incrementsOf k cs = 0).
  { intros k Hk. unfold incrementsOf. apply length_zero_iff_nil.
    induction Hno as [|c cs [Hq He] Hno IH]; [reflexivity|]. simpl.
    destruct c as [k'| |]; try exact IH.
    rewrite bool_decide_false; [exact IH|]. intros ->.
    destruct Hk as [->| ->]; contradiction. }
  destruct (metrics_fold_fields cs initialMetrics) as (H1 & H2 & H3 & H4 & _).
  unfold metricsRun, getMetrics. simpl.
  rewrite H1, H2, H3, H4. simpl.
  rewrite (Hz K_quote_latency_count), (Hz K_execution_latency_count) by auto.
  split.
  - destruct (latenciesOf LQuote cs) as [|x l]; [reflexivity|].
    simpl length. rewrite Z.add_0_r. destruct (Z.ltb_spec 0 (Z.of_nat (S (length l)))); [|lia].
    reflexivity.
  - destruct (latenciesOf LExecution cs) as [|x l]; [reflexivity|].
    simpl length. rewrite Z.add_0_r. destruct (Z.ltb_spec 0 (Z.of_nat (S (length l)))); [|lia].
    reflexivity.
Qed.

(** X5: after any sequence of calls, [orders_total], [orders_completed],
    [orders_failed] and [orders_rejected] equal the number of [increment]
    calls for that key, and [queue_depth] is the last depth set (0 if none). *)
Theorem metrics_counters_count_calls (cs : list MetricsCall) :
  orders_total (metricsRun cs) = Z.of_nat (incrementsOf K_orders_total cs) /\
  orders_completed (metricsRun cs) = Z.of_nat (incrementsOf K_orders_completed cs) /\
  orders_failed (metricsRun cs) = Z.of_nat (incrementsOf K_orders_failed cs) /\
  orders_rejected (metricsRun cs) = Z.of_nat (incrementsOf K_orders_rejected cs) /\
  queue_depth (metricsRun cs) = lastDepth cs.
Proof.
  destruct (metrics_fold_fields cs initialMetrics) as (_ & _ & _ & _ & H5 & H6 & H7 & H8 & H9).
  unfold metricsRun, lastDepth. rewrite H5, H6, H7, H8, H9. simpl. repeat split; lia.
Qed.






(** X8: once [storeIdempotencyResult] has stored key [k] at time [t], a
    request with that key whose [GET] throws goes through without the
    record and is not annotated; when the [GET] succeeds, up to
    [t + 300 s] the request is answered from the record (200 with the stored
    order id for the same body hash, 409 otherwise), and after that the
    record has expired and the request goes through, annotated with the key
    and its body hash. *)
Theorem idempotency_record_ttl (inf : Infra) (k : string) (h body : Body) (o : nat)
    (t : Z) (store : IdemStore) :
  k <> "" ->
  let idem := storeIdempotencyResult t k h o store in
  (inf_idem_get_ok inf = false ->
   idempotencyMiddleware inf (Some k) body idem = (Continue, None)) /\
  (inf_idem_get_ok inf = true -> (inf_now inf <= t + IDEMPOTENCY_TTL * 1000)%Z ->
   idempotencyMiddleware inf (Some k) body idem =
   (if decide (h = hashBody body)
    then Sent (mkReply 200 (RespOrder o) None)
    else Sent (mkReply 409 (RespError IDEMPOTENCY_CONFLICT None) None), None)) /\
  (inf_idem_get_ok inf = true -> (t + IDEMPOTENCY_TTL * 1000 < inf_now inf)%Z ->
   idempotencyMiddleware inf (Some k) body idem = (Continue, Some (k, hashBody body))).
Proof.
  intros Hk idem.
  assert (Hne : String.eqb k "" = false) by (apply String.eqb_neq; exact Hk).
  unfold idem, idempotencyMiddleware, redisGet, storeIdempotencyResult.
  rewrite Hne, lookup_insert_eq. simpl.
  split; [|split]; intros Hok; rewrite Hok; simpl; [reflexivity| |]; intros Ht.
  - rewrite (proj2 (Z.leb_le _ _) Ht). simpl. case_decide; reflexivity.
  - rewrite (proj2 (Z.leb_gt _ _) Ht). reflexivity.
Qed.
















Lemma seeded_random_period_witness :
  (0 <= (next (seedAfter 1 0%Z)).2 < 1)%Q /\
  seedAfter (LCG_MODULUS + 1) 0%Z = seedAfter 1 0%Z /\
  seedAfter (1 + 1) 0%Z <> seedAfter 1 0%Z.
Proof.
  destruct (seeded_random_period 0%Z 1 ltac:(lia)) as [H1 H2].
  destruct (H2 ltac:(lia)) as [H3 H4].
  split; [exact H1|]. split; [exact H3|].
  apply H4. unfold LCG_MODULUS. lia.
Defined.

Lemma metrics_average_is_mean_witness :
  let cs := [CallRecordLatency LQuote 120%Z; CallIncrement K_orders_total;
             CallRecordLatency LQuote 80%Z; CallRecordLatency LExecution 2500%Z] in
  noLatencyCountIncrement cs /\
  quote_avg_latency (getMetrics (metricsRun cs)) = meanLatency (latenciesOf LQuote cs) /\
  execution_avg_latency (getMetrics (metricsRun cs)) = meanLatency (latenciesOf LExecution cs).
Proof.
  intros cs.
  assert (H : noLatencyCountIncrement cs)
    by (repeat constructor; discriminate).
  split; [exact H|]. exact (metrics_average_is_mean cs H).
Defined.


Lemma idempotency_record_ttl_witness :
  let b := bodyOf "market" "SOL" "USDC" "1.5" "0.25" in
  idempotencyMiddleware (healthy 1000%Z) (Some "K") b
    (storeIdempotencyResult 0%Z "K" (hashBody b) 7 ∅) =
    (Sent (mkReply 200 (RespOrder 7) None), None) /\
  idempotencyMiddleware (healthy 400000%Z) (Some "K") b
    (storeIdempotencyResult 0%Z "K" (hashBody b) 7 ∅) =
    (Continue, Some ("K", hashBody b)).
Proof.
  intros b. split.
  - rewrite (proj1 (proj2 (idempotency_record_ttl (healthy 1000%Z) "K" (hashBody b) b 7 0%Z ∅
                      ltac:(discriminate))) eq_refl ltac:(unfold IDEMPOTENCY_TTL; simpl; lia)).
    rewrite decide_True by reflexivity. reflexivity.
  - exact (proj2 (proj2 (idempotency_record_ttl (healthy 400000%Z) "K" (hashBody b) b 7 0%Z ∅
                    ltac:(discriminate))) eq_refl ltac:(unfold IDEMPOTENCY_TTL; simpl; lia)).
Defined.



